(** * Open-Fiesta: the service worker's caching engine and the offline store

    A shallow embedding of the custom service worker (cache-first,
    network-first and stale-while-revalidate strategies, capture stamps,
    expiry, overflow eviction and the cleanup sweep), together with the
    offline store and sync queue its callers rely on. *)

From stdpp Require Import base gmap strings list fin_maps sorting.

(** ** Requests, responses and caches *)

(** Only GET requests reach the strategies; a request is identified by its
    URL, as the cache compares it. *)
Abbreviation Request := string.

(** A [Response]. The ['sw-cached-at'] header is kept apart from the other
    headers: it holds the instant, in milliseconds since the epoch, that the
    ISO string written by [new Date().toISOString()] denotes and that
    [new Date(cachedAt).getTime()] reads back. [None] is a response without
    that header. Only [addTimestamp] writes the header, so an empty or
    unparsable value does not occur. *)
Record Response := mkResponse {
  status : Z;
  statusText : string;
  body : string;
  headers : list (string * string);
  sw_cached_at : option Z;
}.

#[global] Instance Response_eq_dec : EqDecision Response.
Proof. solve_decision. Defined.

(** [response.ok]: the status is in the range 200-299. *)
Definition ok (response : Response) : bool :=
  bool_decide (200 ≤ status response ≤ 299)%Z.

(** A [Cache] of the Cache API: request/response pairs in insertion order,
    oldest first. *)
Abbreviation Cache := (list (string * Response)).

(** [cache.match(request)]: the first entry stored for the request, or
    [undefined]. *)
Fixpoint Cache_match (cache : Cache) (request : Request) : option Response :=
  match cache with
  | [] => None
  | (key, response) :: rest =>
      if decide (key = request) then Some response else Cache_match rest request
  end.

(** [cache.delete(request)]: removes the entries stored for the request. *)
Definition Cache_delete (cache : Cache) (request : Request) : Cache :=
  filter (λ entry, entry.1 ≠ request) cache.

(** [cache.put(request, response)]: the entries stored for the request are
    removed and the new pair is appended. *)
Definition Cache_put (cache : Cache) (request : Request) (response : Response) : Cache :=
  Cache_delete cache request ++ [(request, response)].

(** [cache.keys()]: the requests in insertion order. *)
Definition Cache_keys (cache : Cache) : list Request := cache.*1.

(** ASCII letters in lower case: header names compare without case, and so
    does a pattern with the flag [i]. *)
Definition lower_ascii (c : Ascii.ascii) : Ascii.ascii :=
  let n := Ascii.nat_of_ascii c in
  if bool_decide (65 ≤ n ≤ 90) then Ascii.ascii_of_nat (n + 32) else c.

Fixpoint lower (s : string) : string :=
  match s with
  | EmptyString => EmptyString
  | String c rest => String (lower_ascii c) (lower rest)
  end.

(** The values of a header, split at the commas, without the white space
    around them. *)
Fixpoint split_commas (s : string) : list string :=
  match s with
  | EmptyString => [EmptyString]
  | String c rest =>
      if bool_decide (Ascii.nat_of_ascii c = 44) then  (* a comma *) EmptyString :: split_commas rest
      else match split_commas rest with
           | first :: others => String c first :: others
           | [] => [String c EmptyString]
           end
  end.

Definition is_space (c : Ascii.ascii) : bool :=
  bool_decide (Ascii.nat_of_ascii c ∈ [9; 10; 13; 32]).

Fixpoint trim_start (s : string) : string :=
  match s with
  | EmptyString => EmptyString
  | String c rest => if is_space c then trim_start rest else s
  end.

Definition trim (s : string) : string :=
  String.rev (trim_start (String.rev (trim_start s))).

(** Whether a [Vary] header of the response lists [*]. *)
Definition vary_star (response : Response) : bool :=
  existsb
    (λ header : string * string,
       bool_decide (lower header.1 = "vary") &&
       existsb (λ value, bool_decide (trim value = "*")) (split_commas header.2))
    (headers response).

(** The responses [cache.put] refuses, rejecting with a [TypeError]: those of
    status 206 and those whose [Vary] header lists [*]. (The requests are
    GETs for http(s) URLs and the strategies store a response they have just
    built, so the other grounds for refusal do not arise.) *)
Definition Cache_put_refuses (response : Response) : bool :=
  bool_decide (status response = 206%Z) || vary_star response.

(** The number of entries a cache holds for a request. *)
Definition entries_for (cache : Cache) (request : Request) : nat :=
  length (filter (λ entry, entry.1 = request) cache).

(** The cache storage [caches]: the caches that exist, by name. *)
Abbreviation CacheStorage := (gmap string (list (string * Response))).

(** ** Cache configurations *)

(** One entry of [CACHE_CONFIGS]; a field left out of the object literal is
    [None]. *)
Record CacheConfig := mkConfig {
  maxEntries : option nat;
  maxAgeSeconds : option Z;
}.

Definition CACHE_VERSION : string := "v1".
Definition STATIC_CACHE : string := "static-assets-cache-" +:+ CACHE_VERSION.
Definition API_CACHE : string := "api-cache-" +:+ CACHE_VERSION.
Definition PAGES_CACHE : string := "pages-cache-" +:+ CACHE_VERSION.
Definition FONTS_CACHE : string := "fonts-cache-" +:+ CACHE_VERSION.
Definition IMAGES_CACHE : string := "images-cache-" +:+ CACHE_VERSION.

Definition CACHE_CONFIGS : gmap string CacheConfig :=
  <[STATIC_CACHE := mkConfig (Some 100) (Some (60 * 60 * 24 * 30)%Z)]>
  (<[API_CACHE := mkConfig (Some 50) (Some (60 * 60 * 24)%Z)]>
  (<[PAGES_CACHE := mkConfig (Some 20) (Some (60 * 60 * 24 * 7)%Z)]>
  (<[FONTS_CACHE := mkConfig (Some 20) (Some (60 * 60 * 24 * 365)%Z)]>
  (<[IMAGES_CACHE := mkConfig (Some 60) (Some (60 * 60 * 24 * 30)%Z)]> ∅)))).

(** ** Capture stamps, expiry and overflow eviction *)

(** [addTimestamp(response)], with [now] the instant [new Date()] reads: a new
    response with the same body, status, status text and headers, and
    ['sw-cached-at'] set. *)
Definition addTimestamp (now : Z) (response : Response) : Response :=
  {| status := status response;
     statusText := statusText response;
     body := body response;
     headers := headers response;
     sw_cached_at := Some now |}.

(** [isExpired(response, cacheName)], with [now] the value of [Date.now()]. *)
Definition isExpired (configs : gmap string CacheConfig) (now : Z)
    (response : Response) (cacheName : string) : bool :=
  match sw_cached_at response with
  | None => false                                  (* if (!cachedAt) return false *)
  | Some cachedTime =>
      match configs !! cacheName ≫= maxAgeSeconds with
      | None => false                              (* if (!config?.maxAgeSeconds) *)
      | Some maxAge =>
          if decide (maxAge = 0)%Z then false      (* 0 is falsy as well *)
          else bool_decide (now - cachedTime > maxAge * 1000)%Z
      end
  end.

(** [for (let i = 0; i < count; i++) body(i)], from index [i] on. *)
Fixpoint for_loop {St : Type} (count i : nat) (body : nat → St → St) (s : St) : St :=
  match count with
  | O => s
  | S count' => for_loop count' (S i) body (body i s)
  end.

(** [enforceMaxEntries(cache, cacheName)]: the cache after the call. *)
Definition enforceMaxEntries (configs : gmap string CacheConfig)
    (cache : Cache) (cacheName : string) : Cache :=
  match configs !! cacheName ≫= maxEntries with
  | None => cache                                  (* if (!config?.maxEntries) return *)
  | Some O => cache
  | Some limit =>
      let keys := Cache_keys cache in
      if decide (length keys ≤ limit) then cache
      else
        let entriesToRemove := length keys - limit in
        for_loop entriesToRemove 0
          (λ i cache',
             match keys !! i with
             | Some key => Cache_delete cache' key
             | None => cache'
             end)
          cache
  end.

(** A write as the strategies perform it on an [ok] network response:
    [cache.put(request, addTimestamp(response))] followed by
    [enforceMaxEntries(cache, cacheName)]. *)
Definition write (configs : gmap string CacheConfig) (cacheName : string)
    (cache : Cache) (now : Z) (request : Request) (response : Response) : Cache :=
  enforceMaxEntries configs (Cache_put cache request (addTimestamp now response)) cacheName.

(** A sequence of such writes, each a request, a response and the instant of
    its capture. *)
Definition writes (configs : gmap string CacheConfig) (cacheName : string)
    (cache : Cache) (ws : list (Request * Response * Z)) : Cache :=
  foldl (λ cache' w, write configs cacheName cache' w.2 w.1.1 w.1.2) cache ws.

(** The body of the inner loop of [cleanupCaches], over one cache. *)
Definition cleanupCache (configs : gmap string CacheConfig) (now : Z)
    (cacheName : string) (cache : Cache) : Cache :=
  foldl
    (λ cache' request,
       match Cache_match cache' request with
       | Some response =>
           if isExpired configs now response cacheName
           then Cache_delete cache' request else cache'
       | None => cache'
       end)
    cache (Cache_keys cache).

(** [cleanupCaches()] over the cache storage: the caches of [caches.keys()]
    are visited in turn and those without a configuration are skipped. The
    sweep is taken at one instant [now]. *)
Definition cleanupCaches (configs : gmap string CacheConfig) (now : Z)
    (storage : CacheStorage) : CacheStorage :=
  foldl
    (λ storage' cacheName,
       match configs !! cacheName with
       | None => storage'                          (* continue *)
       | Some _ =>
           let cache := default [] (storage' !! cacheName) in
           <[cacheName := cleanupCache configs now cacheName cache]> storage'
       end)
    storage (map_to_list storage).*1.

(** No cache of the storage holds two entries for one request, which
    [cache.put] sees to. *)
Definition distinct_keys (storage : CacheStorage) : Prop :=
  ∀ name cache, storage !! name = Some cache → NoDup (Cache_keys cache).

(** ** The world of the service worker *)

(** A thrown value: an [Error] with its message. *)
Inductive Error := Err (message : string).

(** How a promise settles. *)
Inductive Settled (A : Type) :=
  | Fulfilled (value : A)
  | Rejected (reason : Error).
Arguments Fulfilled {A} value.
Arguments Rejected {A} reason.

(** A pending promise whose fate is known to the environment: it settles
    [settlesAfter] milliseconds from now, with [outcome]. *)
Record Promise (A : Type) := mkPromise {
  settlesAfter : Z;
  outcome : Settled A;
}.
Arguments mkPromise {A} settlesAfter outcome.
Arguments settlesAfter {A} p.
Arguments outcome {A} p.

Inductive LogLevel := LevelError | LevelWarn.

Record LogEntry := mkLog {
  level : LogLevel;
  text : string;
  detail : Error;
}.

(** A promise chain that nobody awaits: the handlers that
    stale-while-revalidate hangs on its [fetch] run when that fetch settles,
    with what they close over, the cache and the request. [issued] is the
    instant at which the fetch went out. *)
Record Task := mkTask {
  issued : Z;
  task_cacheName : string;
  task_request : Request;
  task_promise : Promise Response;
}.

(** The instant at which the handlers of a chain run. *)
Definition due (task : Task) : Z := (issued task + settlesAfter (task_promise task))%Z.

(** What the strategies read and write: the cache storage, the clock behind
    [Date.now()], the console, the requests handed to [fetch], the chains in
    flight, and the names of the caches in the order of their creation, which
    is the order of [caches.keys()]. *)
Record World := mkWorld {
  caches : CacheStorage;
  clock : Z;
  console : list LogEntry;
  fetched : list Request;
  pending : list Task;
  created : list string;
}.

Definition set_caches (f : CacheStorage → CacheStorage) (w : World) : World :=
  {| caches := f (caches w); clock := clock w; console := console w;
     fetched := fetched w; pending := pending w; created := created w |}.
Definition set_clock (t : Z) (w : World) : World :=
  {| caches := caches w; clock := t; console := console w;
     fetched := fetched w; pending := pending w; created := created w |}.
Definition add_log (entry : LogEntry) (w : World) : World :=
  {| caches := caches w; clock := clock w; console := console w ++ [entry];
     fetched := fetched w; pending := pending w; created := created w |}.
Definition add_fetch (request : Request) (w : World) : World :=
  {| caches := caches w; clock := clock w; console := console w;
     fetched := fetched w ++ [request]; pending := pending w; created := created w |}.
Definition set_pending (tasks : list Task) (w : World) : World :=
  {| caches := caches w; clock := clock w; console := console w;
     fetched := fetched w; pending := tasks; created := created w |}.
Definition set_created (names : list string) (w : World) : World :=
  {| caches := caches w; clock := clock w; console := console w;
     fetched := fetched w; pending := pending w; created := names |}.

(** The chains in flight are kept in the order in which they will run: a new
    one goes behind those that are due no later. *)
Fixpoint schedule (task : Task) (tasks : list Task) : list Task :=
  match tasks with
  | [] => [task]
  | first :: rest =>
      if decide (due first ≤ due task)%Z then first :: schedule task rest
      else task :: tasks
  end.

(** The caches [caches.keys()] lists are those of the storage, each once. *)
Definition listed (w : World) : Prop :=
  NoDup (created w) ∧ ∀ cacheName, cacheName ∈ created w ↔ is_Some (caches w !! cacheName).

(** The entries of the cache named [cacheName]; a cache that was never opened
    has none. *)
Definition cacheOf (w : World) (cacheName : string) : Cache :=
  default [] (caches w !! cacheName).

(** An [async] computation: it runs from a world to a settled result and the
    world it leaves. The clock of that world is the instant at which the
    awaiting caller resumes. *)
Definition M (A : Type) : Type := World → Settled A * World.

#[global] Instance M_ret : MRet M := λ A a w, (Fulfilled a, w).
#[global] Instance M_bind : MBind M := λ A B k m w,
  match m w with
  | (Fulfilled a, w') => k a w'
  | (Rejected e, w') => (Rejected e, w')
  end.

Definition throw {A} (e : Error) : M A := λ w, (Rejected e, w).

(** [try { body } catch (error) { handler }] *)
Definition try_catch {A} (body : M A) (handler : Error → M A) : M A :=
  λ w, match body w with
       | (Fulfilled a, w') => (Fulfilled a, w')
       | (Rejected e, w') => handler e w'
       end.

(** [await promise]: the caller resumes when the promise has settled. *)
Definition await {A} (promise : Promise A) : M A :=
  λ w, (outcome promise, set_clock (clock w + settlesAfter promise)%Z w).

(** The delay [setTimeout(handler, timeout)] waits: its argument is a
    [long], so the number wraps to 32 bits, and a negative delay counts
    as 0. *)
Definition ToInt32 (z : Z) : Z := ((z + 2 ^ 31) mod 2 ^ 32 - 2 ^ 31)%Z.
Definition setTimeout_delay (timeout : Z) : Z := Z.max 0 (ToInt32 timeout).

(** [Promise.race([first, second])]: the promise that settles first; of two
    that settle at the same instant, the one listed first. *)
Definition Promise_race {A} (first second : Promise A) : Promise A :=
  if decide (settlesAfter first ≤ settlesAfter second)%Z then first else second.

(** A promise chain nobody awaits: the caller is not held up and the world
    is as it was, but for the chain, now in flight. A computation is run on
    its own; the chains in flight run between two of them, when [settle]
    moves the world to a later instant. *)
Definition background (task : Task) : M unit :=
  λ w, (Fulfilled tt, set_pending (schedule task (pending w)) w).

Definition Date_now : M Z := λ w, (Fulfilled (clock w), w).

Definition console_error (message : string) (error : Error) : M unit :=
  λ w, (Fulfilled tt, add_log (mkLog LevelError message error) w).
Definition console_warn (message : string) (error : Error) : M unit :=
  λ w, (Fulfilled tt, add_log (mkLog LevelWarn message error) w).

(** [caches.open(cacheName)]: the cache is created empty when it does not
    exist; the handle is its name. *)
Definition caches_open (cacheName : string) : M string :=
  λ w, match caches w !! cacheName with
       | Some _ => (Fulfilled cacheName, w)
       | None =>
           (Fulfilled cacheName,
            set_created (created w ++ [cacheName]) (set_caches (insert cacheName []) w))
       end.

Definition cache_match (cache : string) (request : Request) : M (option Response) :=
  λ w, (Fulfilled (Cache_match (cacheOf w cache) request), w).

(** The [TypeError] with which [cache.put] rejects. *)
Definition Cache_put_TypeError : Error := Err "TypeError: Failed to execute 'put' on 'Cache'".

(** [await cache.put(request, response)]: a response the cache refuses makes
    the promise reject and leaves the cache as it was. *)
Definition cache_put (cache : string) (request : Request) (response : Response) : M unit :=
  λ w, if Cache_put_refuses response then (Rejected Cache_put_TypeError, w)
       else (Fulfilled tt,
             set_caches (insert cache (Cache_put (cacheOf w cache) request response)) w).

Section Strategies.

(** The configuration table, [CACHE_CONFIGS] in the worker, and the network:
    for each request, how long [fetch] takes and how it settles. *)
Context (configs : gmap string CacheConfig).
Context (net : Request → Promise Response).

(** [fetch(request)]: the request goes out and the promise is handed back. *)
Definition fetch (request : Request) : M (Promise Response) :=
  λ w, (Fulfilled (net request), add_fetch request w).

(** [await enforceMaxEntries(cache, cacheName)] on the cache behind a handle. *)
Definition enforceMaxEntries_in (cache cacheName : string) : M unit :=
  λ w, (Fulfilled tt,
        set_caches (insert cache (enforceMaxEntries configs (cacheOf w cache) cacheName)) w).

(** [addTimestamp(networkResponse.clone())] at the current instant. *)
Definition addTimestamp_now (response : Response) : M Response :=
  now ← Date_now; mret (addTimestamp now response).

(** [cachedResponse && !isExpired(cachedResponse, cacheName)] *)
Definition usable (cachedResponse : option Response) (cacheName : string) : M bool :=
  now ← Date_now;
  mret match cachedResponse with
      | Some response => negb (isExpired configs now response cacheName)
      | None => false
      end.

(** The write the three strategies share: stamp, put, enforce. *)
Definition cache_response (cache : string) (request : Request)
    (networkResponse : Response) (cacheName : string) : M unit :=
  if ok networkResponse then
    responseToCache ← addTimestamp_now networkResponse;
    cache_put cache request responseToCache;;
    enforceMaxEntries_in cache cacheName
  else mret tt.

Definition cacheFirstStrategy (request : Request) (cacheName : string) : M Response :=
  try_catch
    (cache ← caches_open cacheName;
     cachedResponse ← cache_match cache request;
     fresh ← usable cachedResponse cacheName;
     match cachedResponse, fresh with
     | Some response, true => mret response
     | _, _ =>
         networkPromise ← fetch request;
         networkResponse ← await networkPromise;
         cache_response cache request networkResponse cacheName;;
         mret networkResponse
     end)
    (λ error,
       console_error "Cache-first strategy failed:" error;;
       cache ← caches_open cacheName;
       staleResponse ← cache_match cache request;
       match staleResponse with
       | Some response => mret response
       | None => throw error
       end).

Definition networkFirstStrategy (request : Request) (cacheName : string)
    (timeout : option Z) : M Response :=
  let timeout := default 3000%Z timeout in
  try_catch
    (cache ← caches_open cacheName;
     networkPromise ← fetch request;
     let timeoutPromise :=
       mkPromise (setTimeout_delay timeout) (Rejected (Err "Network timeout")) in
     try_catch
       (networkResponse ← await (Promise_race networkPromise timeoutPromise);
        cache_response cache request networkResponse cacheName;;
        mret networkResponse)
       (λ networkError,
          cachedResponse ← cache_match cache request;
          match cachedResponse with
          | Some response => mret response
          | None => throw networkError
          end))
    (λ error,
       console_error "Network-first strategy failed:" error;;
       throw error).

(** The chain [fetch(request).then(...).catch(...)] of stale-while-revalidate,
    from the fetch on: it resolves to the response or, as the [catch] handler
    returns nothing, to [undefined] ([None]). *)
Definition revalidate (cache : string) (request : Request) (cacheName : string)
    (fetchPromise : Promise Response) : M (option Response) :=
  try_catch
    (networkResponse ← await fetchPromise;
     cache_response cache request networkResponse cacheName;;
     mret (Some networkResponse))
    (λ error,
       console_warn "Background update failed:" error;;
       mret None).

(** The strategy resolves to a response or to [undefined] ([None]). With a
    usable entry the chain is left in flight; without one it is awaited. *)
Definition staleWhileRevalidateStrategy (request : Request) (cacheName : string)
    : M (option Response) :=
  try_catch
    (cache ← caches_open cacheName;
     cachedResponse ← cache_match cache request;
     fetchPromise ← fetch request;
     let networkPromise := revalidate cache request cacheName fetchPromise in
     fresh ← usable cachedResponse cacheName;
     match cachedResponse, fresh with
     | Some response, true =>
         now ← Date_now;
         background (mkTask now cacheName request fetchPromise);;
         mret (Some response)
     | _, _ => networkPromise
     end)
    (λ error,
       console_error "Stale-while-revalidate strategy failed:" error;;
       throw error).

(** The handlers of a chain in flight, run at the instant its fetch
    settles. *)
Definition land (task : Task) (w : World) : World :=
  (revalidate (task_cacheName task) (task_request task) (task_cacheName task)
     (task_promise task) (set_clock (issued task) w)).2.

(** The world at a later instant, nothing else having happened: the chains
    due by then have run, in the order in which their fetches settled, and
    the others are still in flight. *)
Definition settle (later : Z) (w : World) : World :=
  let landing := filter (λ task, (due task ≤ later)%Z) (pending w) in
  let waiting := filter (λ task, ¬ (due task ≤ later)%Z) (pending w) in
  set_clock later (foldl (λ w' task, land task w') (set_pending waiting w) landing).

(** [cache.addAll(urls)]: every URL is fetched and the responses are stored
    as they came; if a fetch fails, or a response is not [ok] or is one that
    [cache.put] refuses, the promise rejects and nothing is stored. The
    caller resumes once the slowest fetch has settled. *)
Definition cache_addAll (cache : string) (urls : list Request) : M unit :=
  λ w,
    let w' :=
      set_clock (clock w + foldr Z.max 0 (settlesAfter ∘ net <$> urls))%Z
        (foldl (λ w' url, add_fetch url w') w urls) in
    match mapM (λ url,
                  match outcome (net url) with
                  | Fulfilled response =>
                      if ok response && negb (Cache_put_refuses response)
                      then Some (url, response) else None
                  | Rejected _ => None
                  end) urls with
    | Some entries =>
        (Fulfilled (),
         set_caches
           (insert cache
              (foldl (λ cache' entry, Cache_put cache' entry.1 entry.2)
                 (cacheOf w' cache) entries)) w')
    | None => (Rejected (Err "Request failed"), w')
    end.

(** The [install] listener's precaching ([skipWaiting] belongs to the
    worker's lifecycle and is left out). *)
Definition install : M unit :=
  cache ← caches_open STATIC_CACHE;
  cache_addAll cache ["/"; "/manifest.json"].

End Strategies.


(** ** The listeners and the upkeep of the caches *)

(** [s.startsWith(searchString)], [s.includes(searchString)] and
    [s.endsWith(searchString)]. *)
Definition startsWith (searchString s : string) : bool :=
  String.prefix searchString s.

Fixpoint includes (searchString s : string) : bool :=
  String.prefix searchString s ||
  match s with
  | EmptyString => false
  | String _ rest => includes searchString rest
  end.

Definition endsWith (searchString s : string) : bool :=
  bool_decide (String.length searchString ≤ String.length s) &&
  bool_decide
    (String.substring (String.length s - String.length searchString)
       (String.length searchString) s = searchString).

(** [CACHE_PATTERNS.static.test(s)]:
    [/\.(js|css|woff|woff2|ttf|eot|ico|png|jpg|jpeg|gif|svg|webp)$/i] *)
Definition static_extensions : list string :=
  ["js"; "css"; "woff"; "woff2"; "ttf"; "eot"; "ico"; "png"; "jpg"; "jpeg"; "gif";
   "svg"; "webp"].
Definition CACHE_PATTERNS_static (s : string) : bool :=
  existsb (λ extension, endsWith ("." +:+ extension) (lower s)) static_extensions.

(** [CACHE_PATTERNS.api.test(s)]: [/\/api\//] *)
Definition CACHE_PATTERNS_api (s : string) : bool := includes "/api/" s.

(** [CACHE_PATTERNS.fonts.test(s)]: [/^https:\/\/fonts\.(googleapis|gstatic)\.com/] *)
Definition CACHE_PATTERNS_fonts (s : string) : bool :=
  startsWith "https://fonts.googleapis.com" s || startsWith "https://fonts.gstatic.com" s.

(** [CACHE_PATTERNS.images.test(s)]: [/\/_next\/image\?/] *)
Definition CACHE_PATTERNS_images (s : string) : bool := includes "/_next/image?" s.

(** [CACHE_PATTERNS.pages.test(s)]: [/\.html$|\/$/] *)
Definition CACHE_PATTERNS_pages (s : string) : bool :=
  endsWith ".html" s || endsWith "/" s.

(** What the [fetch] listener reads of [event.request]: its method and, of
    [new URL(request.url)], the protocol, the path and the whole URL, which
    is also the key under which the request is cached. *)
Record FetchRequest := mkFetchRequest {
  method : string;
  protocol : string;
  pathname : string;
  href : string;
}.

(** [cleanupOldCaches()]: the caches whose name is not a key of the
    configuration table and contains ['cache'] are deleted. ([currentCaches]
    is computed and never used.) *)
Definition cleanupOldCaches (configs : gmap string CacheConfig)
    (storage : CacheStorage) : CacheStorage :=
  let cacheNames := (map_to_list storage).*1 in
  let oldCaches :=
    filter (λ name, configs !! name = None ∧ includes "cache" name = true) cacheNames in
  foldl (λ storage' cacheName, delete cacheName storage') storage oldCaches.

(** One entry of the status that [getCacheStatus] reports. *)
Record CacheStatus := mkStatus {
  name : string;
  entryCount : nat;
  size : nat;
  lastAccessed : Z;
}.

(** The inner loop of [getCacheStatus]: the sizes of the bodies of the
    responses matched under each key, in bytes. A stored body can always be
    read here, so the [catch] that skips unreadable entries has no case. *)
Definition totalSize (cache : Cache) : nat :=
  foldl
    (λ total request,
       match Cache_match cache request with
       | Some response => total + String.length (body response)
       | None => total
       end)
    0 (Cache_keys cache).

(** [getCacheStatus()]: one status per cache of [caches.keys()], in that
    order. ([caches.open] of a name just listed opens the cache that
    exists.) *)
Definition getCacheStatus : M (list CacheStatus) :=
  λ w,
    (Fulfilled
       ((λ cacheName,
           let cache := cacheOf w cacheName in
           mkStatus cacheName (length (Cache_keys cache)) (totalSize cache) (clock w))
          <$> created w),
     w).


(** The data of a [message] event: its [type] and [payload?.urls]. *)
Record Message := mkMessage {
  type : string;
  urls : option (list string);
}.

(** What the [message] listener does beyond touching the caches. *)
Inductive Effect :=
  | SkipWaiting
  | PostMessage (status : list CacheStatus).

Section Worker.

(** Besides the configuration table and the network, the listeners depend on
    how the browser reads a URL string: [parse url] is the request that
    [fetch(url)] sends and under which [cache.put(url, ...)] stores, the URL
    resolved against the worker's location and without its fragment. *)
Context (configs : gmap string CacheConfig).
Context (net : Request → Promise Response).
Context (parse : string → Request).

(** [event.respondWith(strategy)] for the strategies that resolve to a
    response. *)
Definition responding (strategy : M Response) : M (option Response) :=
  response ← strategy; mret (Some response).

(** The [fetch] listener: [None] when it returns without
    [event.respondWith], otherwise the promise the event is answered with. *)
Definition onFetch (request : FetchRequest) : option (M (option Response)) :=
  if decide (method request ≠ "GET") then None
  else if negb (startsWith "http" (protocol request)) then None
  else if CACHE_PATTERNS_static (pathname request) then
    Some (responding (cacheFirstStrategy configs net (href request) STATIC_CACHE))
  else if CACHE_PATTERNS_api (pathname request) then
    Some (responding (networkFirstStrategy configs net (href request) API_CACHE None))
  else if CACHE_PATTERNS_fonts (href request) then
    Some (responding (cacheFirstStrategy configs net (href request) FONTS_CACHE))
  else if CACHE_PATTERNS_images (href request) then
    Some (staleWhileRevalidateStrategy configs net (href request) IMAGES_CACHE)
  else if CACHE_PATTERNS_pages (pathname request) then
    Some (staleWhileRevalidateStrategy configs net (href request) PAGES_CACHE)
  else
    Some (responding (networkFirstStrategy configs net (href request) PAGES_CACHE None)).

(** The [activate] listener's cleanup ([clients.claim] belongs to the
    worker's lifecycle and is left out). *)
Definition activate : M unit :=
  λ w,
    let kept := cleanupOldCaches configs (caches w) in
    (Fulfilled (),
     set_created (filter (λ cacheName, is_Some (kept !! cacheName)) (created w))
       (set_caches (λ _, kept) w)).

(** [cleanupCaches()] on the world, at the instant [Date.now()] reads. *)
Definition cleanupCaches_now : M unit :=
  λ w, (Fulfilled (), set_caches (cleanupCaches configs (clock w)) w).

(** The cache [warmCache] picks for a URL: the patterns are tried on the URL
    string as given, the pages cache being the default. *)
Definition warmCacheName (url : string) : string :=
  if CACHE_PATTERNS_static url then STATIC_CACHE
  else if CACHE_PATTERNS_api url then API_CACHE
  else if CACHE_PATTERNS_fonts url then FONTS_CACHE
  else if CACHE_PATTERNS_images url then IMAGES_CACHE
  else PAGES_CACHE.

(** The body of [warmCache]'s [async (url) => ...] from the moment its fetch
    settles. The patterns are tried on the string, the request is what the
    browser makes of it. *)
Definition warmOne (url : string) : M unit :=
  try_catch
    (response ← await (net (parse url));
     if ok response then
       cache ← caches_open (warmCacheName url);
       responseToCache ← addTimestamp_now response;
       cache_put cache (parse url) responseToCache
     else mret ())
    (λ error, console_warn ("Failed to warm cache for " +:+ url +:+ ":") error).

(** What [warmCache] stores for a request whose fetch went out at [now]:
    the response stamped at the instant the fetch settles, when it is [ok]
    and the cache takes it. *)
Definition warmed (now : Z) (request : Request) : option Response :=
  match outcome (net request) with
  | Fulfilled response =>
      if ok response && negb (Cache_put_refuses response)
      then Some (addTimestamp (now + settlesAfter (net request)) response)
      else None
  | Rejected _ => None
  end.

(** What [warmCache] logs for a URL. *)
Definition warnings (url : string) : list LogEntry :=
  let warning := mkLog LevelWarn ("Failed to warm cache for " +:+ url +:+ ":") in
  match outcome (net (parse url)) with
  | Fulfilled response =>
      if ok response && Cache_put_refuses response then [warning Cache_put_TypeError]
      else []
  | Rejected error => [warning error]
  end.

(** The URLs in the order in which their fetches settle. *)
Definition settles_no_later (a b : string) : Prop :=
  (settlesAfter (net (parse a)) ≤ settlesAfter (net (parse b)))%Z.

#[global] Instance settles_no_later_dec : RelDecision settles_no_later.
Proof. intros a b. unfold settles_no_later. apply _. Defined.

Definition settling_order (urls : list string) : list string :=
  merge_sort settles_no_later urls.

(** [warmCache(urls)]: the fetches go out together, at one instant; each URL
    is dealt with when its fetch settles; [Promise.allSettled] resumes the
    caller once the slowest has, and never rejects. *)
Definition warmCache (urls : list string) : M unit :=
  λ w,
    let issued := foldl (λ w' url, add_fetch (parse url) w') w urls in
    let settled :=
      foldl (λ w' url, (warmOne url (set_clock (clock w) w')).2) issued
        (settling_order urls) in
    (Fulfilled (),
     set_clock (clock w + foldr Z.max 0 (settlesAfter ∘ net ∘ parse <$> urls))%Z settled).

(** The [message] listener; [port] tells whether [event.ports[0]] exists. *)
Definition onMessage (data : option Message) (port : bool) : M (list Effect) :=
  match data with
  | None => mret []                                   (* event.data || {} *)
  | Some message =>
      if decide (type message = "SKIP_WAITING") then mret [SkipWaiting]
      else if decide (type message = "CLEANUP_CACHES") then
        cleanupCaches_now;; mret []
      else if decide (type message = "WARM_CACHE") then
        match urls message with
        | Some urls => warmCache urls;; mret []
        | None => mret []
        end
      else if decide (type message = "GET_CACHE_STATUS") then
        status ← getCacheStatus;
        mret (if port then [PostMessage status] else [])
      else mret []
  end.

End Worker.

(** ** The offline store and the sync queue *)

Module Offline.

(** Modelled from the spec: [syncStatus] of a cached conversation, one of
    synced, pending, conflict. *)
Inductive SyncStatus := synced | pending_sync | conflict.

(** Modelled from the spec: the [CachedConversation] of [@/lib/offline/types],
    of which only the test's literals are at hand: a snapshot of one chat
    thread (opaque here) with its sync metadata. *)
Record CachedConversation := mkConversation {
  conv_id : string;
  thread : string;
  lastModified : Z;
  syncStatus : SyncStatus;
}.

(** Modelled from the spec: the closed set of action kinds, as the design
    document lists them. *)
Inductive ActionType := SEND_MESSAGE | UPDATE_THREAD | DELETE_THREAD.

(** Modelled from the spec: the [status] of a queue item. *)
Inductive QueueStatus := pending | syncing | completed | failed.

(** Modelled from the spec: the [OfflineQueueItem] of [@/lib/offline/types]:
    a durable record of one user action awaiting network execution. *)
Record QueueItem := mkItem {
  id : string;
  type : ActionType;
  payload : string;
  timestamp : Z;
  retryCount : nat;
  maxRetries : nat;
  status : QueueStatus;
  error : option string;
}.

#[global] Instance QueueStatus_eq_dec : EqDecision QueueStatus.
Proof. solve_decision. Defined.

(** Modelled from the spec: the collections of the persistent store
    ([@/lib/offline/storage] is not at hand): conversations by id, and the
    queue items in arrival order. *)
Record Database := mkDatabase {
  conversations : gmap string CachedConversation;
  queue : list QueueItem;
}.

(** Modelled from the spec: the store is either not ready (initialization
    failed or has not succeeded yet) or open on its collections. *)
Inductive Store :=
  | NotReady
  | Ready (db : Database).

(** Modelled from the spec: an operation of the store yields a value or
    fails with a [StoreError]. *)
Inductive StoreResult (A : Type) :=
  | Ok (value : A)
  | StoreError (reason : string).
Arguments Ok {A} value.
Arguments StoreError {A} reason.

(** Modelled from the spec: [get(collection, key) -> value|absent] on the
    conversations; absence is a result ([None]), a store that is not ready
    is an error. *)
Definition store_get (store : Store) (key : string) : StoreResult (option CachedConversation) :=
  match store with
  | NotReady => StoreError "not ready"
  | Ready db => Ok (conversations db !! key)
  end.

(** Modelled from the spec: [getConversation(id) -> conv|null], the
    pass-through over [get]; [Ok None] is [null]. *)
Definition getConversation (store : Store) (conversationId : string)
    : StoreResult (option CachedConversation) :=
  store_get store conversationId.

(** Modelled from the spec: [storeConversation(conv)], the pass-through
    over [put], keyed by the conversation's id. *)
Definition storeConversation (store : Store) (conv : CachedConversation) : StoreResult Store :=
  match store with
  | NotReady => StoreError "not ready"
  | Ready db =>
      Ok (Ready (mkDatabase (<[conv_id conv := conv]> (conversations db)) (queue db)))
  end.

(** *** The sync queue (section 4.4 of the spec) *)

(** Modelled from the spec: a transition touches the status, the retry count
    and the error of an item, and nothing else. *)
Definition with_status (s : QueueStatus) (rc : nat) (e : option string)
    (item : QueueItem) : QueueItem :=
  {| id := id item; type := type item; payload := payload item;
     timestamp := timestamp item; retryCount := rc;
     maxRetries := maxRetries item; status := s; error := e |}.

(** Modelled from the spec: [remove(id)], explicit deletion. *)
Definition remove (itemId : string) (q : list QueueItem) : list QueueItem :=
  filter (λ item, id item ≠ itemId) q.

(** Modelled from the spec: [enqueue(item)]: persisted with
    [status = pending] and [retryCount = 0], behind the items already
    queued. Ids are unique: the caller mints a new one for each action. *)
Definition enqueue (item : QueueItem) (q : list QueueItem) : list QueueItem :=
  q ++ [with_status pending 0 None item].

(** Modelled from the spec: [clear()]. *)
Definition clear (q : list QueueItem) : list QueueItem := [].

(** Modelled from the spec: [pending -> syncing], when a worker takes the
    item. *)
Definition begin_sync (itemId : string) (q : list QueueItem) : list QueueItem :=
  (λ item,
     if decide (id item = itemId ∧ status item = pending)
     then with_status syncing (retryCount item) (error item) item
     else item) <$> q.

(** Modelled from the spec: the transition of a [syncing] item after a
    failed attempt: [pending] with [retryCount] incremented while that stays
    below [maxRetries]; [failed] once [retryCount] reaches [maxRetries], and
    also when the increment would exceed it, the count then staying where
    it is. *)
Definition after_failure (reason : string) (item : QueueItem) : QueueItem :=
  if decide (S (retryCount item) < maxRetries item)
  then with_status pending (S (retryCount item)) (Some reason) item
  else with_status failed (S (retryCount item) `min` maxRetries item) (Some reason) item.

(** Modelled from the spec: the end of an attempt on a [syncing] item:
    [None] is success (the item is deleted, not marked), [Some reason] a
    failure. *)
Definition finish_sync (itemId : string) (result : option string)
    (q : list QueueItem) : list QueueItem :=
  match result with
  | None => filter (λ item, ¬ (id item = itemId ∧ status item = syncing)) q
  | Some reason =>
      (λ item,
         if decide (id item = itemId ∧ status item = syncing)
         then after_failure reason item else item) <$> q
  end.

(** Modelled from the spec: startup after a crash: items left [syncing] are
    treated as [pending] again. *)
Definition recover (q : list QueueItem) : list QueueItem :=
  (λ item,
     if decide (status item = syncing)
     then with_status pending (retryCount item) (error item) item
     else item) <$> q.

(** Modelled from the spec: [drain()]: the items pending at the start are
    processed in FIFO order, one attempt each; [attempt] is the network's
    answer for an item. *)
Definition drain (attempt : QueueItem → option string) (q : list QueueItem)
    : list QueueItem :=
  foldl
    (λ q' item,
       if decide (status item = pending)
       then finish_sync (id item) (attempt item) (begin_sync (id item) q')
       else q')
    q q.

(** Modelled from the spec: the retry bound of one item,
    [retryCount <= maxRetries]. *)
Definition within_retries (item : QueueItem) : Prop :=
  retryCount item ≤ maxRetries item.

(** Modelled from the spec: the operations of section 4.4 on the queue, one
    constructor each, for the states the queue can reach. *)
Inductive QueueOp :=
  | OpEnqueue (item : QueueItem)
  | OpBeginSync (itemId : string)
  | OpFinishSync (itemId : string) (result : option string)
  | OpDrain (attempt : QueueItem → option string)
  | OpRecover
  | OpRemove (itemId : string)
  | OpClear.

(** Modelled from the spec: what an operation does to the queue. *)
Definition apply (op : QueueOp) (q : list QueueItem) : list QueueItem :=
  match op with
  | OpEnqueue item => enqueue item q
  | OpBeginSync itemId => begin_sync itemId q
  | OpFinishSync itemId result => finish_sync itemId result q
  | OpDrain attempt => drain attempt q
  | OpRecover => recover q
  | OpRemove itemId => remove itemId q
  | OpClear => clear q
  end.

(** Modelled from the spec: the queue after a history of operations, oldest
    first, from empty. *)
Definition run (ops : list QueueOp) : list QueueItem :=
  foldl (λ q op, apply op q) [] ops.

(** Modelled from the spec: the operations that delete on the user's
    request, [remove(id)] and [clear()]. *)
Definition explicit_deletion (op : QueueOp) : Prop :=
  match op with
  | OpRemove _ | OpClear => True
  | _ => False
  end.

End Offline.


(** ** Sample data *)

Definition sample_response : Response := mkResponse 200 "OK" "{}" [] None.

(** The sample response as captured at instant 0. *)
Definition sample_stamped : Response := addTimestamp 0 sample_response.

(** A world at instant 1000 whose API cache holds one entry, captured at 0. *)
Definition sample_world : World :=
  mkWorld {[ API_CACHE := [("/api/models", sample_stamped)] ]} 1000 [] [] [] [API_CACHE].

(** A world at instant 1000 with no cache at all. *)
Definition empty_world : World := mkWorld ∅ 1000 [] [] [] [].

(** A newer response for the same request. *)
Definition sample_update : Response := mkResponse 200 "OK" "{v2}" [] None.

(** A network that fails after 40 ms, and one that answers, with the newer
    response, after 500 ms. *)
Definition offline_network : Request → Promise Response :=
  λ _, mkPromise 40 (Rejected (Err "Failed to fetch")).
Definition slow_network : Request → Promise Response :=
  λ _, mkPromise 500 (Fulfilled sample_update).


(** A table of at most two entries that never expire by age. *)
Definition small_table : gmap string CacheConfig :=
  {[ "table" := mkConfig (Some 2) None ]}.

(** A queued action with three retries, and the same once it has failed. *)
Definition sample_action : Offline.QueueItem :=
  Offline.mkItem "a1" Offline.SEND_MESSAGE "{}" 0 0 3 Offline.pending None.
Definition sample_failed : Offline.QueueItem :=
  Offline.with_status Offline.failed 3 (Some "offline") sample_action.

Definition sample_home : FetchRequest :=
  mkFetchRequest "GET" "https:" "/" "https://fiesta.example/".

(** How the sample URLs, absolute paths without a fragment, resolve against
    the worker's location. *)
Definition sample_parse (url : string) : Request := "https://fiesta.example" +:+ url.

(** A storage that still holds the API cache of an earlier version. *)
Definition old_storage : CacheStorage :=
  <["api-cache-v0" := [("/api/models", sample_response)]]> (caches sample_world).

(** * Properties *)

(** ** Caches *)

Section CacheFacts.
Implicit Types (cache : Cache) (request key : string) (response : Response).

Lemma Cache_match_app cache1 cache2 request :
  Cache_match (cache1 ++ cache2) request =
  match Cache_match cache1 request with
  | Some response => Some response
  | None => Cache_match cache2 request
  end.
Proof.
  induction cache1 as [|[key response] rest IH]; simpl; [done|].
  by case_decide.
Qed.

Lemma Cache_match_None cache request :
  Cache_match cache request = None ↔ request ∉ Cache_keys cache.
Proof.
  unfold Cache_keys.
  induction cache as [|[key response] rest IH]; simpl.
  - split; [intros _; apply not_elem_of_nil | done].
  - rewrite not_elem_of_cons. case_decide as Hkey.
    + split; [done | intros [Hne _]; by destruct Hne].
    + rewrite IH. split; [intros ?; split; [congruence | done] | tauto].
Qed.

Lemma Cache_match_delete cache key request :
  Cache_match (Cache_delete cache key) request =
  if decide (key = request) then None else Cache_match cache request.
Proof.
  unfold Cache_delete.
  induction cache as [|[key' response] rest IH]; simpl.
  - by case_decide.
  - rewrite filter_cons. simpl. repeat (case_decide; simpl; simplify_eq); try done.
Qed.

Lemma Cache_match_put cache key response request :
  Cache_match (Cache_put cache key response) request =
  if decide (key = request) then Some response else Cache_match cache request.
Proof.
  unfold Cache_put. rewrite Cache_match_app, Cache_match_delete. simpl.
  case_decide; [done|]. by destruct (Cache_match cache request).
Qed.

Lemma Cache_delete_absent cache key :
  key ∉ Cache_keys cache → Cache_delete cache key = cache.
Proof.
  unfold Cache_keys, Cache_delete.
  induction cache as [|[key' response] rest IH]; simpl; [done|].
  rewrite not_elem_of_cons. intros [Hne Hrest].
  rewrite filter_cons_True by (simpl; congruence). by rewrite IH.
Qed.

Lemma Cache_keys_delete cache key :
  Cache_keys (Cache_delete cache key) = filter (λ k, k ≠ key) (Cache_keys cache).
Proof.
  unfold Cache_keys, Cache_delete.
  induction cache as [|[key' response] rest IH]; [done|].
  destruct (decide (key' = key)) as [->|Hne].
  - rewrite filter_cons_False by (simpl; tauto). simpl.
    by rewrite filter_cons_False by tauto.
  - rewrite filter_cons_True by done. simpl.
    rewrite filter_cons_True by done. f_equal. apply IH.
Qed.

Lemma NoDup_filter_keys (keys : list string) (P : string → Prop)
    `{!∀ k, Decision (P k)} :
  NoDup keys → NoDup (filter P keys).
Proof.
  induction 1 as [|k keys Hk Hnd IH]; [constructor|].
  rewrite filter_cons. case_decide; [|done].
  constructor; [|done]. rewrite list_elem_of_filter. tauto.
Qed.

Lemma Cache_delete_NoDup cache key :
  NoDup (Cache_keys cache) → NoDup (Cache_keys (Cache_delete cache key)).
Proof. rewrite Cache_keys_delete. apply NoDup_filter_keys. Qed.

Lemma Cache_put_NoDup cache key response :
  NoDup (Cache_keys cache) → NoDup (Cache_keys (Cache_put cache key response)).
Proof.
  intros Hnd. unfold Cache_put, Cache_keys. rewrite fmap_app. simpl.
  apply NoDup_app. split_and!.
  - by apply Cache_delete_NoDup.
  - intros k Hk Hin. apply list_elem_of_singleton in Hin as ->.
    fold (Cache_keys (Cache_delete cache key)) in Hk.
    rewrite Cache_keys_delete, list_elem_of_filter in Hk. tauto.
  - apply NoDup_singleton.
Qed.

Lemma entries_for_delete cache key : entries_for (Cache_delete cache key) key = 0.
Proof.
  unfold entries_for, Cache_delete.
  induction cache as [|[key' response] rest IH]; simpl; [done|].
  rewrite (filter_cons (λ entry, entry.1 ≠ key)). simpl.
  case_decide; [|done]. by rewrite filter_cons_False.
Qed.

Lemma entries_for_put cache key response :
  entries_for (Cache_put cache key response) key = 1.
Proof.
  unfold entries_for, Cache_put. rewrite filter_app, length_app.
  fold (entries_for (Cache_delete cache key) key). rewrite entries_for_delete.
  by rewrite filter_cons_True.
Qed.

Lemma entries_for_NoDup cache request :
  NoDup (Cache_keys cache) → entries_for cache request ≤ 1.
Proof.
  unfold entries_for, Cache_keys.
  induction cache as [|[key response] rest IH]; simpl; [lia|].
  rewrite NoDup_cons. intros [Hnotin Hnd]. rewrite filter_cons. simpl.
  case_decide; [|auto]. subst. simpl.
  assert (filter (λ entry : string * Response, entry.1 = request) rest = []) as ->; [|simpl; lia].
  destruct (filter _ rest) as [|e ?] eqn:Hf; [done|]. exfalso.
  assert (e ∈ filter (λ entry : string * Response, entry.1 = request) rest) as He
    by (rewrite Hf; left).
  apply list_elem_of_filter in He as [<- He]. apply Hnotin.
  by apply list_elem_of_fmap_2.
Qed.

End CacheFacts.

(** ** Overflow eviction *)

Section Eviction.
Context (configs : gmap string CacheConfig) (cacheName : string).
Implicit Types (cache : Cache).

(** The eviction loop deletes the entries at the indices it visits: from a
    cache whose keys are distinct, that is the oldest [count] entries. *)
Lemma eviction_loop_drop (keys : list string) count :
  ∀ (visited cache : Cache),
    keys = Cache_keys (visited ++ cache) →
    NoDup keys →
    count ≤ length cache →
    for_loop count (length visited)
      (λ i cache', match keys !! i with
                   | Some key => Cache_delete cache' key
                   | None => cache'
                   end) cache
    = drop count cache.
Proof.
  induction count as [|count IH]; intros visited cache Hkeys Hnd Hlen; [done|].
  destruct cache as [|[key response] rest]; [simpl in Hlen; lia|].
  simpl for_loop.
  assert (keys !! length visited = Some key) as ->.
  { rewrite Hkeys. unfold Cache_keys. rewrite fmap_app, lookup_app_r, length_fmap
      by (rewrite length_fmap; lia).
    by rewrite Nat.sub_diag. }
  assert (key ∉ Cache_keys rest) as Hfresh.
  { rewrite Hkeys in Hnd. unfold Cache_keys in Hnd |- *.
    rewrite fmap_app in Hnd. apply NoDup_app in Hnd as (_ & _ & Hnd).
    rewrite fmap_cons in Hnd. by apply NoDup_cons in Hnd as [? _]. }
  assert (Cache_delete ((key, response) :: rest) key = rest) as ->.
  { unfold Cache_delete. rewrite filter_cons_False by (simpl; tauto).
    by apply Cache_delete_absent. }
  specialize (IH (visited ++ [(key, response)]) rest).
  rewrite length_app, Nat.add_1_r in IH. simpl drop. apply IH.
  - by rewrite <- app_assoc.
  - done.
  - simpl in Hlen. lia.
Qed.

Lemma enforceMaxEntries_drop cache limit :
  configs !! cacheName ≫= maxEntries = Some (S limit) →
  NoDup (Cache_keys cache) →
  enforceMaxEntries configs cache cacheName = drop (length cache - S limit) cache.
Proof.
  intros Hcfg Hnd. unfold enforceMaxEntries. rewrite Hcfg.
  assert (length (Cache_keys cache) = length cache) as Hlen
    by (unfold Cache_keys; apply length_fmap).
  rewrite Hlen. case_decide as Hle.
  - by replace (length cache - S limit) with 0 by lia.
  - apply (eviction_loop_drop _ _ []); [done | done | lia].
Qed.

Lemma enforceMaxEntries_NoDup cache :
  NoDup (Cache_keys cache) →
  NoDup (Cache_keys (enforceMaxEntries configs cache cacheName)).
Proof.
  intros Hnd. destruct (configs !! cacheName ≫= maxEntries) as [[|limit]|] eqn:Hcfg.
  - unfold enforceMaxEntries. by rewrite Hcfg.
  - rewrite (enforceMaxEntries_drop _ limit) by done.
    unfold Cache_keys in *. rewrite fmap_drop.
    rewrite <- (take_drop (length cache - S limit) cache.*1) in Hnd.
    by apply NoDup_app in Hnd as (_ & _ & ?).
  - unfold enforceMaxEntries. by rewrite Hcfg.
Qed.

Lemma write_NoDup cache now request response :
  NoDup (Cache_keys cache) →
  NoDup (Cache_keys (write configs cacheName cache now request response)).
Proof. intros. by apply enforceMaxEntries_NoDup, Cache_put_NoDup. Qed.

Lemma writes_NoDup ws : ∀ cache,
  NoDup (Cache_keys cache) → NoDup (Cache_keys (writes configs cacheName cache ws)).
Proof.
  unfold writes. induction ws as [|w ws IH]; intros cache Hnd; [done|].
  simpl. by apply IH, write_NoDup.
Qed.

Lemma write_length cache limit now request response :
  configs !! cacheName ≫= maxEntries = Some (S limit) →
  NoDup (Cache_keys cache) →
  length (write configs cacheName cache now request response) ≤ S limit.
Proof.
  intros Hcfg Hnd. unfold write.
  rewrite (enforceMaxEntries_drop _ limit) by first [done | by apply Cache_put_NoDup].
  rewrite length_drop. lia.
Qed.

Lemma writes_length limit ws : ∀ cache,
  configs !! cacheName ≫= maxEntries = Some (S limit) →
  NoDup (Cache_keys cache) →
  length cache ≤ S limit →
  length (writes configs cacheName cache ws) ≤ S limit.
Proof.
  unfold writes. induction ws as [|w ws IH]; intros cache Hcfg Hnd Hlen; [done|].
  simpl. apply IH; [done | by apply write_NoDup | by apply write_length].
Qed.

Lemma write_fresh_key cache limit now request response :
  configs !! cacheName ≫= maxEntries = Some (S limit) →
  NoDup (Cache_keys cache) →
  request ∉ Cache_keys cache →
  write configs cacheName cache now request response
  = drop (length cache - limit) (cache ++ [(request, addTimestamp now response)]).
Proof.
  intros Hcfg Hnd Hfresh. unfold write.
  rewrite (enforceMaxEntries_drop _ limit) by first [done | by apply Cache_put_NoDup].
  unfold Cache_put. rewrite Cache_delete_absent by done.
  rewrite length_app. simpl. f_equal. lia.
Qed.

End Eviction.

(** The tables the worker configures all have a positive entry limit and a
    positive maximum age. *)
Lemma CACHE_CONFIGS_positive cacheName config :
  CACHE_CONFIGS !! cacheName = Some config →
  (∃ limit, maxEntries config = Some (S limit)) ∧
  (∃ maxAge, maxAgeSeconds config = Some maxAge ∧ (0 < maxAge)%Z).
Proof.
  unfold CACHE_CONFIGS. rewrite !lookup_insert, lookup_empty.
  repeat case_decide; intros; simplify_eq; simpl; split; eexists; eauto; split; eauto; lia.
Qed.

(** Keys of a short literal cache are told apart by their disequalities. *)
Ltac distinct_keys_of_literal :=
  unfold Cache_keys; simpl;
  rewrite ?NoDup_cons, ?not_elem_of_cons;
  repeat split; try apply not_elem_of_nil; try apply NoDup_nil_2; congruence.

(** C3. In a table with a configured entry limit, the entry count never
    exceeds [maxEntries] after any sequence of writes that are each followed
    by overflow eviction, whatever the table held before the first of them;
    a write that takes the count over the limit has the oldest entries
    deleted, in insertion order, until the count equals the limit, and a
    write within the limit deletes nothing. The tables of [CACHE_CONFIGS] all
    obey their limit, and with [maxEntries = 2] and no maximum age, writing
    distinct keys A, B, C in that order leaves exactly B and C. *)
Theorem writes_never_exceed_maxEntries
    (configs : gmap string CacheConfig) (cacheName : string) (limit : nat)
    (cache : Cache) (ws : list (Request * Response * Z)) (now : Z)
    (request : Request) (response : Response) :
  configs !! cacheName ≫= maxEntries = Some (S limit) →
  NoDup (Cache_keys cache) →
  let table := writes configs cacheName cache ws in
  let written := Cache_put table request (addTimestamp now response) in
  let table' := write configs cacheName table now request response in
  (length cache ≤ S limit ∨ ws ≠ [] → length table ≤ S limit) ∧
  length table' ≤ S limit ∧
  (S limit < length written →
     table' = drop (length written - S limit) written ∧ length table' = S limit) ∧
  (length written ≤ S limit → table' = written) ∧
  (∀ name max ws', CACHE_CONFIGS !! name ≫= maxEntries = Some max →
     length (writes CACHE_CONFIGS name [] ws') ≤ max) ∧
  (∀ (cfg : gmap string CacheConfig) name A B C rA rB rC tA tB tC,
     cfg !! name = Some (mkConfig (Some 2) None) →
     A ≠ B → A ≠ C → B ≠ C →
     writes cfg name [] [(A, rA, tA); (B, rB, tB); (C, rC, tC)]
     = [(B, addTimestamp tB rB); (C, addTimestamp tC rC)]).
Proof.
  intros Hcfg Hcache table written table'.
  assert (NoDup (Cache_keys table)) as Hnd by by apply writes_NoDup.
  assert (NoDup (Cache_keys written)) as Hnd' by by apply Cache_put_NoDup.
  assert (table' = drop (length written - S limit) written) as Hdrop
    by by apply enforceMaxEntries_drop.
  split_and!.
  - intros [Hfits | Hwritten]; [by apply writes_length|].
    unfold table. destruct ws as [|w ws]; [done|]. unfold writes. simpl.
    apply writes_length; [done | by apply write_NoDup | by apply write_length].
  - by apply write_length.
  - intros Hover. split; [done|]. rewrite Hdrop, length_drop. lia.
  - intros Hfit. rewrite Hdrop. by replace (length written - S limit) with 0 by lia.
  - intros name max ws' Hmax.
    destruct (CACHE_CONFIGS !! name) as [config|] eqn:Hname; [|done].
    destruct (CACHE_CONFIGS_positive _ _ Hname) as [[n Hn] _].
    simpl in Hmax. rewrite Hn in Hmax. simplify_eq.
    apply writes_length; [by rewrite Hname | constructor | simpl; lia].
  - intros cfg name A B C rA rB rC tA tB tC Hname HAB HAC HBC.
    assert (cfg !! name ≫= maxEntries = Some 2) as Hmax by by rewrite Hname.
    unfold writes. simpl.
    rewrite (write_fresh_key cfg name [] 1) by first [done | distinct_keys_of_literal].
    simpl.
    rewrite (write_fresh_key cfg name [_] 1) by first [done | distinct_keys_of_literal].
    simpl.
    rewrite (write_fresh_key cfg name [_; _] 1) by first [done | distinct_keys_of_literal].
    done.
Qed.

(** ** Writes replace *)

Section Replacement.
Context (configs : gmap string CacheConfig) (cacheName : string).
Implicit Types (cache : Cache).

Lemma entries_for_absent cache request :
  request ∉ Cache_keys cache → entries_for cache request = 0.
Proof.
  intros Hfresh. rewrite <- (Cache_delete_absent cache request) by done.
  apply entries_for_delete.
Qed.

Lemma Cache_keys_drop_absent cache request n :
  request ∉ Cache_keys cache → request ∉ Cache_keys (drop n cache).
Proof.
  unfold Cache_keys. rewrite fmap_drop. intros Hfresh Hin. apply Hfresh.
  rewrite <- (take_drop n cache.*1). apply elem_of_app. by right.
Qed.

Lemma Cache_delete_self_absent cache request :
  request ∉ Cache_keys (Cache_delete cache request).
Proof. rewrite Cache_keys_delete, list_elem_of_filter. tauto. Qed.

(** A write leaves the written pair last, behind what eviction kept of the
    other entries. *)
Lemma write_shape cache now request response :
  NoDup (Cache_keys cache) →
  ∃ n, write configs cacheName cache now request response
       = drop n (Cache_delete cache request) ++ [(request, addTimestamp now response)].
Proof.
  intros Hnd. unfold write.
  destruct (configs !! cacheName ≫= maxEntries) as [[|limit]|] eqn:Hcfg.
  - exists 0. unfold enforceMaxEntries. by rewrite Hcfg.
  - rewrite (enforceMaxEntries_drop _ _ _ limit) by first [done | by apply Cache_put_NoDup].
    unfold Cache_put. rewrite length_app. simpl.
    exists (length (Cache_delete cache request) + 1 - S limit).
    rewrite drop_app_le by lia. done.
  - exists 0. unfold enforceMaxEntries. by rewrite Hcfg.
Qed.

Lemma write_match_self cache now request response :
  NoDup (Cache_keys cache) →
  Cache_match (write configs cacheName cache now request response) request
  = Some (addTimestamp now response).
Proof.
  intros Hnd. destruct (write_shape cache now request response Hnd) as [n ->].
  rewrite Cache_match_app.
  assert (Cache_match (drop n (Cache_delete cache request)) request = None) as ->.
  { apply Cache_match_None, Cache_keys_drop_absent, Cache_delete_self_absent. }
  simpl. by case_decide.
Qed.

Lemma write_entries_self cache now request response :
  NoDup (Cache_keys cache) →
  entries_for (write configs cacheName cache now request response) request = 1.
Proof.
  intros Hnd. destruct (write_shape cache now request response Hnd) as [n ->].
  unfold entries_for. rewrite filter_app, length_app.
  fold (entries_for (drop n (Cache_delete cache request)) request).
  rewrite entries_for_absent
    by apply Cache_keys_drop_absent, Cache_delete_self_absent.
  by rewrite filter_cons_True.
Qed.

End Replacement.


(** C8. Writing a key that already has an entry leaves exactly one entry
    for that key, carrying the second write's response and capture stamp;
    this holds for the bare [cache.put] and for the write the strategies
    perform (stamp, put, evict), and no table ever holds two entries with one
    key. *)
Theorem write_same_key_replaces
    (configs : gmap string CacheConfig) (cacheName : string) (cache : Cache)
    (request : Request) (first second : Response) (t1 t2 : Z) :
  NoDup (Cache_keys cache) →
  let put2 := Cache_put (Cache_put cache request (addTimestamp t1 first))
                request (addTimestamp t2 second) in
  let write2 := write configs cacheName
                  (write configs cacheName cache t1 request first) t2 request second in
  (entries_for put2 request = 1 ∧
   Cache_match put2 request = Some (addTimestamp t2 second)) ∧
  (entries_for write2 request = 1 ∧
   Cache_match write2 request = Some (addTimestamp t2 second) ∧
   sw_cached_at <$> Cache_match write2 request = Some (Some t2)) ∧
  (∀ key, entries_for put2 key ≤ 1 ∧ entries_for write2 key ≤ 1).
Proof.
  intros Hnd put2 write2.
  assert (NoDup (Cache_keys (write configs cacheName cache t1 request first))) as Hnd1
    by by apply write_NoDup.
  split_and!.
  - apply entries_for_put.
  - unfold put2. rewrite Cache_match_put. by case_decide.
  - by apply write_entries_self.
  - by apply write_match_self.
  - unfold write2. by rewrite write_match_self.
  - intros key. split; apply entries_for_NoDup.
    + by do 2 apply Cache_put_NoDup.
    + by apply write_NoDup.
Qed.

(** ** Expiry *)

(** C5. For a response that carries its capture stamp and a table with a
    configured maximum age, [isExpired] is true exactly when
    [now - cachedAt], in milliseconds, exceeds [maxAgeSeconds * 1000]; for a
    table with no configured maximum age (none given, or the falsy 0, which
    the guard [!config?.maxAgeSeconds] takes for none) it is false for every
    response at every instant. On the worker's own [CACHE_CONFIGS] the
    comparison decides it for every cache name. *)
Theorem isExpired_compares_age_with_maxAge
    (configs : gmap string CacheConfig) (now cachedAt : Z) (response : Response)
    (cacheName : string) :
  sw_cached_at response = Some cachedAt →
  (∀ maxAge, configs !! cacheName ≫= maxAgeSeconds = Some maxAge → maxAge ≠ 0%Z →
     isExpired configs now response cacheName = true ↔
     (now - cachedAt > maxAge * 1000)%Z) ∧
  (configs !! cacheName ≫= maxAgeSeconds = None ∨
   configs !! cacheName ≫= maxAgeSeconds = Some 0%Z →
     ∀ now' response', isExpired configs now' response' cacheName = false) ∧
  (∀ name, isExpired CACHE_CONFIGS now response name = true ↔
     ∃ maxAge, CACHE_CONFIGS !! name ≫= maxAgeSeconds = Some maxAge ∧
               (now - cachedAt > maxAge * 1000)%Z).
Proof.
  intros Hstamp. split_and!.
  - intros maxAge Hcfg Hnz. unfold isExpired. rewrite Hstamp, Hcfg.
    case_decide; [done|]. by rewrite bool_decide_eq_true.
  - intros [Hcfg|Hcfg] now' response'; unfold isExpired; rewrite Hcfg;
      by destruct (sw_cached_at response').
  - intros name. unfold isExpired. rewrite Hstamp.
    destruct (CACHE_CONFIGS !! name) as [config|] eqn:Hname; simpl.
    + destruct (CACHE_CONFIGS_positive _ _ Hname) as [_ (maxAge & -> & Hpos)].
      case_decide; [lia|]. rewrite bool_decide_eq_true.
      split; [by eauto | by intros (? & [= <-] & ?)].
    + split; [done | by intros (? & ? & _)].
Qed.

(** ** The strategies *)

Section WorldFacts.
Implicit Types (w : World) (cache : Cache).

Lemma cacheOf_insert w cacheName cache name :
  cacheOf (set_caches (insert cacheName cache) w) name
  = if decide (cacheName = name) then cache else cacheOf w name.
Proof.
  unfold cacheOf, set_caches. simpl. rewrite lookup_insert.
  by case_decide.
Qed.

(** Opening a cache changes no cache's entries. *)
Lemma caches_open_run cacheName w :
  ∃ w', caches_open cacheName w = (Fulfilled cacheName, w') ∧
        (∀ name, cacheOf w' name = cacheOf w name) ∧
        clock w' = clock w ∧ console w' = console w ∧ fetched w' = fetched w ∧
        pending w' = pending w ∧
        (is_Some (caches w !! cacheName) → w' = w).
Proof.
  unfold caches_open. destruct (caches w !! cacheName) as [cache|] eqn:Hopen.
  - exists w. by eauto 10.
  - eexists. split; [done|]. split_and!; try done.
    intros name. change (cacheOf (set_created ?names ?w0) name) with (cacheOf w0 name).
    rewrite cacheOf_insert. case_decide; [subst|done].
    unfold cacheOf. by rewrite Hopen.
Qed.

(** A cache that is open stays as it is when it is opened again. *)
Lemma caches_open_again cacheName w :
  is_Some (caches w !! cacheName) → caches_open cacheName w = (Fulfilled cacheName, w).
Proof. intros [cache Hcache]. unfold caches_open. by rewrite Hcache. Qed.

Lemma caches_open_opened cacheName w :
  is_Some (caches (caches_open cacheName w).2 !! cacheName).
Proof.
  unfold caches_open. destruct (caches w !! cacheName) as [cache|] eqn:Hcache; simpl.
  - by rewrite Hcache.
  - by rewrite lookup_insert_eq.
Qed.

Lemma cacheOf_set_clock t w name : cacheOf (set_clock t w) name = cacheOf w name.
Proof. done. Qed.

Lemma cacheOf_set_pending tasks w name : cacheOf (set_pending tasks w) name = cacheOf w name.
Proof. done. Qed.

Lemma cacheOf_set_created names w name : cacheOf (set_created names w) name = cacheOf w name.
Proof. done. Qed.

Lemma cacheOf_add_fetch request w name : cacheOf (add_fetch request w) name = cacheOf w name.
Proof. done. Qed.

Lemma cacheOf_add_log entry w name : cacheOf (add_log entry w) name = cacheOf w name.
Proof. done. Qed.

Lemma Cache_match_is_Some w cacheName request response :
  Cache_match (cacheOf w cacheName) request = Some response →
  is_Some (caches w !! cacheName).
Proof.
  unfold cacheOf. destruct (caches w !! cacheName); [eauto | done].
Qed.

End WorldFacts.

Create Rewrite HintDb world.
#[global] Hint Rewrite cacheOf_set_clock cacheOf_add_fetch cacheOf_add_log
  cacheOf_set_pending cacheOf_set_created cacheOf_insert : world.

(** Reads the entries of a cache off a world built by the strategies. *)
Ltac read_world :=
  autorewrite with world;
  rewrite ?decide_True by done;
  rewrite ?decide_False by congruence;
  simpl.

Ltac unfold_async :=
  unfold try_catch, mbind, M_bind, mret, M_ret, throw, cache_match, cache_put,
    usable, Date_now, fetch, await, addTimestamp_now, enforceMaxEntries_in,
    console_error, console_warn, background in *.

Section StrategyFacts.
Context (configs : gmap string CacheConfig) (net : Request → Promise Response).
Implicit Types (w : World) (request cacheName : string).

Lemma cacheFirst_hit request cacheName w response :
  Cache_match (cacheOf w cacheName) request = Some response →
  isExpired configs (clock w) response cacheName = false →
  cacheFirstStrategy configs net request cacheName w = (Fulfilled response, w).
Proof.
  intros Hmatch Hfresh.
  destruct (caches_open_run cacheName w) as (w' & Hopen & _ & _ & _ & _ & _ & Hsame).
  rewrite (Hsame (Cache_match_is_Some _ _ _ _ Hmatch)) in Hopen.
  unfold cacheFirstStrategy, try_catch, mbind, M_bind, cache_match, usable, Date_now, mret, M_ret.
  rewrite Hopen. simpl. rewrite Hmatch. simpl. by rewrite Hfresh.
Qed.

Lemma Cache_put_refuses_addTimestamp now response :
  Cache_put_refuses (addTimestamp now response) = Cache_put_refuses response.
Proof. done. Qed.

(** The write of an [ok] response, as one update of the cache, unless the
    cache refuses the response. *)
Lemma cache_response_run cache request networkResponse cacheName w :
  cache_response configs cache request networkResponse cacheName w
  = if ok networkResponse then
      if Cache_put_refuses networkResponse then (Rejected Cache_put_TypeError, w)
      else (Fulfilled (),
            set_caches
              (insert cache (write configs cacheName (cacheOf w cache) (clock w)
                               request networkResponse)) w)
    else (Fulfilled (), w).
Proof.
  unfold cache_response. destruct (ok networkResponse); [|done].
  unfold_async. simpl. rewrite Cache_put_refuses_addTimestamp.
  destruct (Cache_put_refuses networkResponse); [done|].
  simpl. f_equal. unfold set_caches, write. simpl. f_equal.
  rewrite insert_insert_eq. f_equal. f_equal.
  unfold cacheOf. simpl. by rewrite lookup_insert_eq.
Qed.

End StrategyFacts.

(** What cache-first does, case by case. A response is stored when it is
    [ok] and the cache takes it; a refused [put] is a failure like that of
    the network. *)
Lemma cacheFirstStrategy_run
    (configs : gmap string CacheConfig) (net : Request → Promise Response)
    (request : Request) (cacheName : string) (w : World) :
  let cache := cacheOf w cacheName in
  let arrival := (clock w + settlesAfter (net request))%Z in
  let run := cacheFirstStrategy configs net request cacheName w in
  let refreshed networkResponse :=
    if ok networkResponse && negb (Cache_put_refuses networkResponse)
    then write configs cacheName cache arrival request networkResponse
    else cache in
  let fallback error :=
    match Cache_match cache request with
    | Some stale => Fulfilled stale
    | None => Rejected error
    end in
  let logged error := mkLog LevelError "Cache-first strategy failed:" error in
  (∀ name, name ≠ cacheName → cacheOf run.2 name = cacheOf w name) ∧
  pending run.2 = pending w ∧
  (∀ response,
     Cache_match cache request = Some response →
     isExpired configs (clock w) response cacheName = false →
     run = (Fulfilled response, w)) ∧
  ((∀ response, Cache_match cache request = Some response →
                isExpired configs (clock w) response cacheName = true) →
   fetched run.2 = fetched w ++ [request] ∧
   clock run.2 = arrival ∧
   (∀ networkResponse, outcome (net request) = Fulfilled networkResponse →
      cacheOf run.2 cacheName = refreshed networkResponse ∧
      if ok networkResponse && Cache_put_refuses networkResponse
      then run.1 = fallback Cache_put_TypeError ∧
           console run.2 = console w ++ [logged Cache_put_TypeError]
      else run.1 = Fulfilled networkResponse ∧ console run.2 = console w) ∧
   (∀ error, outcome (net request) = Rejected error →
      cacheOf run.2 cacheName = cache ∧
      run.1 = fallback error ∧
      console run.2 = console w ++ [logged error])).
Proof.
  intros cache arrival run refreshed fallback logged.
  assert (∀ response, Cache_match cache request = Some response →
            isExpired configs (clock w) response cacheName = false →
            run = (Fulfilled response, w)) as Hhit
    by (intros; by apply cacheFirst_hit).
  destruct (Cache_match cache request) as [cached|] eqn:Hm;
    [destruct (isExpired configs (clock w) cached cacheName) eqn:Hexp|].
  2:{ rewrite (Hhit _ eq_refl Hexp). simpl.
      split_and!; [done | done | by intros ? [= <-] | ].
      intros Hstale. specialize (Hstale _ eq_refl). congruence. }
  all: clear Hhit.
  all: pose proof (caches_open_opened cacheName w) as Hopened.
  all: destruct (caches_open_run cacheName w)
         as (w' & Hopen & Hcaches & Hclock & Hconsole & Hfetched & Hpending & _).
  all: rewrite Hopen in Hopened; simpl in Hopened.
  all: unfold run, cacheFirstStrategy; unfold_async.
  all: rewrite Hopen; simpl; rewrite Hcaches, Hclock; fold cache; rewrite Hm, ?Hexp; simpl.
  all: destruct (outcome (net request)) as [networkResponse|error] eqn:Hnet;
         rewrite ?cache_response_run; simpl.
  all: try (destruct (ok networkResponse) eqn:Hok;
            [destruct (Cache_put_refuses networkResponse) eqn:Hrefuses|]; simpl).
  all: rewrite ?caches_open_again by exact Hopened; simpl.
  all: autorewrite with world; rewrite ?Hcaches; fold cache; rewrite ?Hm; simpl.
  all: unfold refreshed, fallback, logged.
  all: split; [intros name Hne; read_world; apply Hcaches|].
  all: split; [done|].
  all: split; [intros response ? ?; simplify_eq; congruence|].
  all: intros _; rewrite ?Hfetched, ?Hclock, ?Hconsole.
  all: split; [done|]; split; [done|].
  all: split; [intros nr ? | intros e ?]; simplify_eq;
       rewrite ?Hok, ?Hrefuses; simpl; read_world;
       rewrite ?Hcaches, ?Hclock; by split_and!.
Qed.

(** What network-first does, case by case. *)
Lemma networkFirstStrategy_run
    (configs : gmap string CacheConfig) (net : Request → Promise Response)
    (request : Request) (cacheName : string) (timeout : option Z) (w : World) :
  let cache := cacheOf w cacheName in
  let delay := setTimeout_delay (default 3000%Z timeout) in
  let latency := settlesAfter (net request) in
  let run := networkFirstStrategy configs net request cacheName timeout w in
  let refreshed networkResponse :=
    if ok networkResponse && negb (Cache_put_refuses networkResponse)
    then write configs cacheName cache (clock w + latency) request networkResponse
    else cache in
  let fallback error :=
    match Cache_match cache request with
    | Some cached => Fulfilled cached
    | None => Rejected error
    end in
  let logged error := mkLog LevelError "Network-first strategy failed:" error in
  fetched run.2 = fetched w ++ [request] ∧
  (∀ name, name ≠ cacheName → cacheOf run.2 name = cacheOf w name) ∧
  ((latency ≤ delay)%Z →
   clock run.2 = (clock w + latency)%Z ∧
   (∀ networkResponse, outcome (net request) = Fulfilled networkResponse →
      cacheOf run.2 cacheName = refreshed networkResponse ∧
      run.1 = if ok networkResponse && Cache_put_refuses networkResponse
              then fallback Cache_put_TypeError else Fulfilled networkResponse) ∧
   (∀ error, outcome (net request) = Rejected error →
      run.1 = fallback error ∧ cacheOf run.2 cacheName = cache)) ∧
  ((delay < latency)%Z →
   clock run.2 = (clock w + delay)%Z ∧
   run.1 = fallback (Err "Network timeout") ∧
   cacheOf run.2 cacheName = cache) ∧
  pending run.2 = pending w ∧
  console run.2 = console w ++ match run.1 with
                               | Fulfilled _ => []
                               | Rejected error => [logged error]
                               end.
Proof.
  intros cache delay latency run refreshed fallback logged.
  destruct (caches_open_run cacheName w)
    as (w' & Hopen & Hcaches & Hclock & Hconsole & Hfetched & Hpending & _).
  unfold run, networkFirstStrategy. unfold_async. rewrite Hopen. simpl.
  fold delay. unfold Promise_race. simpl. fold latency.
  case_decide as Hrace; simpl;
    [destruct (outcome (net request)) as [networkResponse|error] eqn:Hnet|];
    rewrite ?cache_response_run; simpl.
  all: try (destruct (ok networkResponse) eqn:Hok;
            [destruct (Cache_put_refuses networkResponse) eqn:Hrefuses|]; simpl).
  all: autorewrite with world; rewrite ?Hcaches; fold cache; unfold refreshed, fallback, logged.
  all: destruct (Cache_match cache request) as [cached|] eqn:Hm; simpl.
  all: rewrite ?Hfetched, ?Hclock, ?Hconsole, ?Hpending, ?app_nil_r.
  all: split; [done|].
  all: split; [intros name Hne; read_world; apply Hcaches|].
  all: split;
         [intros Hle;
          first [lia
                | split; [done|];
                  split; [intros nr ? | intros e ?]; simplify_eq;
                  rewrite ?Hok, ?Hrefuses; simpl; read_world;
                  rewrite ?Hcaches, ?Hclock; by split_and!] |].
  all: split;
         [intros Hlt;
          first [lia | split_and!; try done; read_world; apply Hcaches] |].
  all: by split.
Qed.

(** The chain of stale-while-revalidate, run from the instant of its fetch
    on a cache that is open. *)
Lemma revalidate_run
    (configs : gmap string CacheConfig) (request : Request) (cacheName : string)
    (fetchPromise : Promise Response) (w : World) :
  let cache := cacheOf w cacheName in
  let arrival := (clock w + settlesAfter fetchPromise)%Z in
  let run := revalidate configs cacheName request cacheName fetchPromise w in
  let warning error := mkLog LevelWarn "Background update failed:" error in
  clock run.2 = arrival ∧ fetched run.2 = fetched w ∧ pending run.2 = pending w ∧
  (∀ name, name ≠ cacheName → cacheOf run.2 name = cacheOf w name) ∧
  match outcome fetchPromise with
  | Fulfilled networkResponse =>
      if ok networkResponse then
        if Cache_put_refuses networkResponse then
          run.1 = Fulfilled None ∧ cacheOf run.2 cacheName = cache ∧
          console run.2 = console w ++ [warning Cache_put_TypeError]
        else
          run.1 = Fulfilled (Some networkResponse) ∧
          cacheOf run.2 cacheName = write configs cacheName cache arrival request networkResponse ∧
          console run.2 = console w
      else
        run.1 = Fulfilled (Some networkResponse) ∧ cacheOf run.2 cacheName = cache ∧
        console run.2 = console w
  | Rejected error =>
      run.1 = Fulfilled None ∧ cacheOf run.2 cacheName = cache ∧
      console run.2 = console w ++ [warning error]
  end.
Proof.
  intros cache arrival run warning. unfold run, revalidate. unfold_async. simpl.
  destruct (outcome fetchPromise) as [networkResponse|error]; simpl;
    rewrite ?cache_response_run; simpl.
  2: by split_and!.
  destruct (ok networkResponse); [destruct (Cache_put_refuses networkResponse)|]; simpl.
  all: split_and!; try done.
  all: try (intros name Hne; by read_world).
  by read_world.
Qed.

(** What stale-while-revalidate does, case by case. With a usable entry the
    caller is answered at once and the chain is left in flight: no cache has
    changed yet. *)
Lemma staleWhileRevalidate_run
    (configs : gmap string CacheConfig) (net : Request → Promise Response)
    (request : Request) (cacheName : string) (w : World) :
  let cache := cacheOf w cacheName in
  let arrival := (clock w + settlesAfter (net request))%Z in
  let run := staleWhileRevalidateStrategy configs net request cacheName w in
  let refreshed networkResponse :=
    if ok networkResponse && negb (Cache_put_refuses networkResponse)
    then write configs cacheName cache arrival request networkResponse
    else cache in
  let warning error := mkLog LevelWarn "Background update failed:" error in
  fetched run.2 = fetched w ++ [request] ∧
  (∀ name, name ≠ cacheName → cacheOf run.2 name = cacheOf w name) ∧
  (∀ response,
     Cache_match cache request = Some response →
     isExpired configs (clock w) response cacheName = false →
     run.1 = Fulfilled (Some response) ∧ clock run.2 = clock w ∧
     console run.2 = console w ∧
     caches run.2 = caches w ∧
     pending run.2 = schedule (mkTask (clock w) cacheName request (net request)) (pending w)) ∧
  ((∀ response, Cache_match cache request = Some response →
                isExpired configs (clock w) response cacheName = true) →
   clock run.2 = arrival ∧ pending run.2 = pending w ∧
   (∀ networkResponse, outcome (net request) = Fulfilled networkResponse →
      cacheOf run.2 cacheName = refreshed networkResponse ∧
      if ok networkResponse && Cache_put_refuses networkResponse
      then run.1 = Fulfilled None ∧
           console run.2 = console w ++ [warning Cache_put_TypeError]
      else run.1 = Fulfilled (Some networkResponse) ∧ console run.2 = console w) ∧
   (∀ error, outcome (net request) = Rejected error →
      run.1 = Fulfilled None ∧
      cacheOf run.2 cacheName = cache ∧
      console run.2 = console w ++ [warning error])).
Proof.
  intros cache arrival run refreshed warning.
  destruct (Cache_match cache request) as [cached|] eqn:Hm;
    [destruct (isExpired configs (clock w) cached cacheName) eqn:Hexp|].
  2:{ (* a usable entry: the cache is open already *)
      pose proof (caches_open_again cacheName w (Cache_match_is_Some _ _ _ _ Hm)) as Hopen.
      unfold run, staleWhileRevalidateStrategy. unfold_async. rewrite Hopen. simpl.
      fold cache. rewrite Hm. simpl. rewrite Hexp. simpl.
      split_and!; try done.
      - intros response [= <-] _. by split_and!.
      - intros Hstale. specialize (Hstale _ eq_refl). congruence. }
  all: destruct (caches_open_run cacheName w)
         as (w' & Hopen & Hcaches & Hclock & Hconsole & Hfetched & Hpending & _).
  all: pose proof (revalidate_run configs request cacheName (net request)
                     (add_fetch request w')) as Hchain; cbv zeta in Hchain.
  all: destruct Hchain as (Hclock' & Hfetched' & Hpending' & Hother' & Hchain).
  all: unfold run, staleWhileRevalidateStrategy; unfold_async.
  all: rewrite Hopen; simpl; rewrite Hcaches, Hclock; fold cache; rewrite Hm, ?Hexp; simpl.
  all: fold (revalidate configs cacheName request cacheName (net request)).
  all: destruct (revalidate configs cacheName request cacheName (net request)
                   (add_fetch request w')) as [[result|failure] w2] eqn:Hrun;
         simpl in *.
  all: rewrite ?Hclock', ?Hfetched', ?Hpending', ?Hfetched, ?Hclock, ?Hpending.
  all: autorewrite with world in Hchain; rewrite Hcaches in Hchain; fold cache in Hchain.
  all: destruct (outcome (net request)) as [networkResponse|error] eqn:Hnet;
         [destruct (ok networkResponse) eqn:Hok;
          [destruct (Cache_put_refuses networkResponse) eqn:Hrefuses|]|].
  all: destruct Hchain as (Hres & Hcache & Hlog); simplify_eq.
  all: rewrite ?Hconsole in Hlog; rewrite ?Hclock in Hcache.
  all: try unfold refreshed; try unfold warning; try unfold arrival.
  all: split; [done|].
  all: split; [intros name Hne; rewrite Hother' by done; read_world; apply Hcaches|].
  all: split; [intros response ? ?; simplify_eq; congruence|].
  all: intros _; split; [done|]; split; [done|].
  all: split; [intros nr ? | intros e ?]; simplify_eq;
       rewrite ?Hok, ?Hrefuses; simpl; by split_and!.
Qed.

(** A chain in flight, once its fetch has settled. *)
Lemma land_run (configs : gmap string CacheConfig) (task : Task) (w : World) :
  let cacheName := task_cacheName task in
  let cache := cacheOf w cacheName in
  let w' := land configs task w in
  let warning error := mkLog LevelWarn "Background update failed:" error in
  clock w' = due task ∧ fetched w' = fetched w ∧ pending w' = pending w ∧
  (∀ name, name ≠ cacheName → cacheOf w' name = cacheOf w name) ∧
  match outcome (task_promise task) with
  | Fulfilled networkResponse =>
      if ok networkResponse then
        if Cache_put_refuses networkResponse then
          cacheOf w' cacheName = cache ∧
          console w' = console w ++ [warning Cache_put_TypeError]
        else
          cacheOf w' cacheName
          = write configs cacheName cache (due task) (task_request task) networkResponse ∧
          console w' = console w
      else cacheOf w' cacheName = cache ∧ console w' = console w
  | Rejected error =>
      cacheOf w' cacheName = cache ∧ console w' = console w ++ [warning error]
  end.
Proof.
  intros cacheName cache w' warning.
  pose proof (revalidate_run configs (task_request task) cacheName (task_promise task)
                (set_clock (issued task) w)) as Hchain. cbv zeta in Hchain.
  destruct Hchain as (Hclock & Hfetched & Hpending & Hother & Hchain).
  fold (land configs task w) in Hclock, Hfetched, Hpending, Hother, Hchain.
  fold w' in Hclock, Hfetched, Hpending, Hother, Hchain.
  split_and!; try done.
  destruct (outcome (task_promise task)) as [networkResponse|error];
    [destruct (ok networkResponse); [destruct (Cache_put_refuses networkResponse)|]|];
    by destruct Hchain as (_ & Hcache & Hlog).
Qed.

(** The world at a later instant when one chain is in flight. *)
Lemma settle_one (configs : gmap string CacheConfig) (later : Z) (task : Task) (w : World) :
  pending w = [task] →
  settle configs later w
  = if decide (due task ≤ later)%Z
    then set_clock later (land configs task (set_pending [] w))
    else set_clock later w.
Proof.
  intros Hpending. unfold settle. rewrite Hpending.
  rewrite !filter_cons, !filter_nil.
  destruct (decide (due task ≤ later)%Z) as [Hdue|Hdue].
  - by rewrite decide_False by tauto.
  - rewrite decide_True by done. simpl. by destruct w; simplify_eq/=.
Qed.

Lemma settle_none (configs : gmap string CacheConfig) (later : Z) (w : World) :
  pending w = [] → settle configs later w = set_clock later w.
Proof.
  intros Hpending. unfold settle. rewrite Hpending. simpl.
  by destruct w; simplify_eq/=.
Qed.



(** ** The cleanup sweep *)

Section Cleanup.
Context (configs : gmap string CacheConfig) (now : Z).
Implicit Types (cache : Cache) (storage : CacheStorage).

(** The entries the sweep keeps in the cache [cacheName]. *)
Local Abbreviation kept cacheName :=
  (filter (λ entry : string * Response,
             isExpired configs now entry.2 cacheName = false)).

Lemma isExpired_unconfigured response cacheName :
  configs !! cacheName = None → isExpired configs now response cacheName = false.
Proof.
  intros Hcfg. unfold isExpired. rewrite Hcfg. by destruct (sw_cached_at response).
Qed.

Lemma kept_unconfigured cache cacheName :
  configs !! cacheName = None → kept cacheName cache = cache.
Proof.
  intros Hcfg. induction cache as [|entry rest IH]; [done|].
  rewrite filter_cons_True by by apply isExpired_unconfigured. by rewrite IH.
Qed.

Lemma kept_idemp cache cacheName :
  kept cacheName (kept cacheName cache) = kept cacheName cache.
Proof.
  induction cache as [|entry rest IH]; [done|].
  rewrite (filter_cons _ entry rest). case_decide; [|done].
  rewrite filter_cons_True by done. by rewrite IH.
Qed.

Lemma kept_NoDup cache cacheName :
  NoDup (Cache_keys cache) → NoDup (Cache_keys (kept cacheName cache)).
Proof.
  unfold Cache_keys. intros Hnd.
  apply (sublist_NoDup _ cache.*1); [done|]. apply fmap_sublist, sublist_filter.
Qed.

(** The inner loop, entry by entry: what has been visited and kept stays,
    the rest is filtered. *)
Lemma cleanupCache_loop cacheName : ∀ (rest visited : Cache),
  NoDup (Cache_keys (visited ++ rest)) →
  foldl
    (λ cache' request,
       match Cache_match cache' request with
       | Some response =>
           if isExpired configs now response cacheName
           then Cache_delete cache' request else cache'
       | None => cache'
       end)
    (visited ++ rest) (Cache_keys rest)
  = visited ++ kept cacheName rest.
Proof.
  induction rest as [|[key response] rest IH]; intros visited Hnd; [done|].
  assert ((key ∉ Cache_keys visited) ∧ (key ∉ Cache_keys rest)) as [Hvisited Hrest].
  { unfold Cache_keys in *. rewrite fmap_app, fmap_cons in Hnd.
    apply NoDup_app in Hnd as (_ & Hdisj & Hnd). apply NoDup_cons in Hnd as [? _].
    split; [|done]. intros Hin. apply (Hdisj _ Hin). left. }
  simpl foldl. rewrite Cache_match_app.
  rewrite (proj2 (Cache_match_None visited key) Hvisited). simpl.
  rewrite decide_True by done.
  destruct (isExpired configs now response cacheName) eqn:Hexp.
  - assert (Cache_delete (visited ++ (key, response) :: rest) key = visited ++ rest) as ->.
    { unfold Cache_delete. rewrite filter_app, filter_cons_False by (simpl; tauto).
      fold (Cache_delete visited key) (Cache_delete rest key).
      by rewrite !Cache_delete_absent. }
    rewrite filter_cons_False by (simpl; congruence).
    apply IH. unfold Cache_keys in *. rewrite fmap_app in *.
    rewrite fmap_cons in Hnd.
    apply NoDup_app in Hnd as (Hnd1 & Hdisj & Hnd2).
    apply NoDup_cons in Hnd2 as [_ Hnd2].
    apply NoDup_app. split_and!; [done | | done].
    intros k Hk Hin. apply (Hdisj k Hk). by right.
  - rewrite filter_cons_True by done.
    rewrite (cons_middle _ visited rest), app_assoc. rewrite IH.
    + by rewrite <- app_assoc.
    + by rewrite <- app_assoc.
Qed.

Lemma cleanupCache_kept cacheName cache :
  NoDup (Cache_keys cache) →
  cleanupCache configs now cacheName cache = kept cacheName cache.
Proof. intros Hnd. by apply (cleanupCache_loop cacheName cache []). Qed.

(** The outer loop, cache name by cache name. *)
Lemma cleanupCaches_loop (names : list string) : ∀ storage,
  distinct_keys storage →
  ∀ name,
    default [] (foldl
      (λ storage' cacheName,
         match configs !! cacheName with
         | None => storage'
         | Some _ =>
             let cache := default [] (storage' !! cacheName) in
             <[cacheName := cleanupCache configs now cacheName cache]> storage'
         end) storage names !! name)
    = if decide (name ∈ names)
      then kept name (default [] (storage !! name))
      else default [] (storage !! name).
Proof.
  induction names as [|n names IH]; intros storage Hwf name.
  - destruct (decide (name ∈ [])) as [Hin|_]; [by apply not_elem_of_nil in Hin | done].
  - cbn [foldl].
    match goal with |- context [foldl _ ?s names] => set (storage1 := s) end.
    assert (NoDup (Cache_keys (default [] (storage !! n)))) as Hn.
    { destruct (storage !! n) as [c|] eqn:Hc; [by eapply Hwf | constructor]. }
    assert (∀ name', default [] (storage1 !! name')
                     = if decide (name' = n) then kept n (default [] (storage !! n))
                       else default [] (storage !! name')) as Hstep.
    { intros name'. unfold storage1. destruct (configs !! n) eqn:Hcfg.
      - rewrite lookup_insert. case_decide; case_decide; simplify_eq; try done.
        simpl. by apply cleanupCache_kept.
      - case_decide; [subst|done]. by rewrite kept_unconfigured. }
    assert (distinct_keys storage1) as Hwf1.
    { intros name' cache'. unfold storage1. destruct (configs !! n); [|by apply Hwf].
      rewrite lookup_insert. case_decide; [|by apply Hwf].
      intros [= <-]. rewrite cleanupCache_kept by done. by apply kept_NoDup. }
    etrans; [exact (IH storage1 Hwf1 name)|]. rewrite (Hstep name).
    destruct (decide (name = n)) as [->|Hne].
    + rewrite (decide_True (P := n ∈ n :: names)) by left.
      case_decide; [apply kept_idemp | done].
    + case_decide as Hin.
      * by rewrite decide_True by by right.
      * rewrite decide_False; [done|]. rewrite not_elem_of_cons. tauto.
Qed.

Lemma cleanupCaches_kept storage name :
  distinct_keys storage →
  default [] (cleanupCaches configs now storage !! name)
  = kept name (default [] (storage !! name)).
Proof.
  intros Hwf. unfold cleanupCaches. rewrite cleanupCaches_loop by done.
  case_decide as Hin; [done|].
  destruct (storage !! name) as [cache|] eqn:Hcache; [|done].
  exfalso. apply Hin. apply list_elem_of_fmap. exists (name, cache).
  split; [done|]. by apply elem_of_map_to_list.
Qed.

End Cleanup.

(** ** Reads, stamps and the sweep *)

Lemma usable_or_not (configs : gmap string CacheConfig) (now : Z) (cache : Cache)
    (request : Request) (cacheName : string) :
  (∃ response, Cache_match cache request = Some response ∧
               isExpired configs now response cacheName = false) ∨
  (∀ response, Cache_match cache request = Some response →
               isExpired configs now response cacheName = true).
Proof.
  destruct (Cache_match cache request) as [cached|]; [|by right].
  destruct (isExpired configs now cached cacheName) eqn:Hexp.
  - right. by intros ? [= <-].
  - left. eauto.
Qed.

(** The only way a strategy changes a cache: the write of an [ok] network
    response into the cache it serves. *)
Lemma strategies_only_write
    (configs : gmap string CacheConfig) (net : Request → Promise Response)
    (request : Request) (cacheName : string) (timeout : option Z) (w w' : World) :
  w' = (cacheFirstStrategy configs net request cacheName w).2 ∨
  w' = (networkFirstStrategy configs net request cacheName timeout w).2 ∨
  w' = (staleWhileRevalidateStrategy configs net request cacheName w).2 →
  ∀ name,
    cacheOf w' name = cacheOf w name ∨
    (name = cacheName ∧
     ∃ networkResponse arrival,
       outcome (net request) = Fulfilled networkResponse ∧
       ok networkResponse = true ∧
       cacheOf w' name
       = write configs cacheName (cacheOf w cacheName) arrival request networkResponse).
Proof.
  intros Hrun name.
  assert (∀ nr arrival (c : Cache),
            outcome (net request) = Fulfilled nr →
            c = (if ok nr && negb (Cache_put_refuses nr)
                 then write configs cacheName (cacheOf w cacheName) arrival request nr
                 else cacheOf w cacheName) →
            c = cacheOf w cacheName ∨
            (cacheName = cacheName ∧
             ∃ networkResponse arrival,
               outcome (net request) = Fulfilled networkResponse ∧
               ok networkResponse = true ∧
               c = write configs cacheName (cacheOf w cacheName) arrival request
                     networkResponse)) as Hrefresh.
  { intros nr arrival c Hnet ->. destruct (ok nr) eqn:Hok; [|by left].
    destruct (Cache_put_refuses nr); [by left|].
    right. split; [done|]. by exists nr, arrival. }
  destruct Hrun as [-> | [-> | ->]].
  - destruct (cacheFirstStrategy_run configs net request cacheName w)
      as (Hother & _ & Hhit & Hmiss).
    destruct (decide (name = cacheName)) as [->|Hne]; [|left; by apply Hother].
    destruct (usable_or_not configs (clock w) (cacheOf w cacheName) request cacheName)
      as [(cached & Hm & Hfresh) | Hstale].
    + left. by rewrite (Hhit _ Hm Hfresh).
    + destruct (Hmiss Hstale) as (_ & _ & Hok & Hfail).
      destruct (outcome (net request)) as [nr|error] eqn:Hnet.
      * destruct (Hok _ eq_refl) as [Hcache _]. by eapply Hrefresh.
      * left. by apply (Hfail _ eq_refl).
  - destruct (networkFirstStrategy_run configs net request cacheName timeout w)
      as (_ & Hother & Hnetwork & Htimeout & _).
    destruct (decide (name = cacheName)) as [->|Hne]; [|left; by apply Hother].
    destruct (decide (settlesAfter (net request)
                      ≤ setTimeout_delay (default 3000 timeout))%Z) as [Hle|Hgt].
    + destruct (Hnetwork Hle) as (_ & Hok & Hfail).
      destruct (outcome (net request)) as [nr|error] eqn:Hnet.
      * destruct (Hok _ eq_refl) as [Hcache _]. by eapply Hrefresh.
      * left. by apply (Hfail _ eq_refl).
    + left. apply Htimeout. lia.
  - destruct (staleWhileRevalidate_run configs net request cacheName w)
      as (_ & Hother & Hhit & Hmiss).
    destruct (decide (name = cacheName)) as [->|Hne]; [|left; by apply Hother].
    destruct (usable_or_not configs (clock w) (cacheOf w cacheName) request cacheName)
      as [(cached & Hm & Hfresh) | Hstale].
    + destruct (Hhit _ Hm Hfresh) as (_ & _ & _ & Hsame & _).
      left. unfold cacheOf. by rewrite Hsame.
    + destruct (Hmiss Hstale) as (_ & _ & Hok & Hfail).
      destruct (outcome (net request)) as [nr|error] eqn:Hnet.
      * destruct (Hok _ eq_refl) as [Hcache _]. by eapply Hrefresh.
      * left. by apply (Hfail _ eq_refl).
Qed.

(** C7. A strategy that reads a stale or expired entry deletes nothing: the
    caches leave a run as they entered it unless an [ok] network response was
    written (and when the network fails they are left untouched), while the
    cleanup sweep keeps, in every cache and in their order, exactly the
    entries that are not expired, deleting the expired ones; caches without a
    configuration are left alone. *)
Theorem reads_keep_and_cleanup_deletes_expired
    (configs : gmap string CacheConfig) (net : Request → Promise Response)
    (request : Request) (cacheName : string) (timeout : option Z) (w : World)
    (now : Z) (storage : CacheStorage) :
  distinct_keys storage →
  let unchanged_or_written (w' : World) :=
    ∀ name,
      cacheOf w' name = cacheOf w name ∨
      (name = cacheName ∧
       ∃ networkResponse arrival,
         outcome (net request) = Fulfilled networkResponse ∧
         ok networkResponse = true ∧
         cacheOf w' name
         = write configs cacheName (cacheOf w cacheName) arrival request networkResponse) in
  let swept name := default [] (cleanupCaches configs now storage !! name) in
  unchanged_or_written (cacheFirstStrategy configs net request cacheName w).2 ∧
  unchanged_or_written (networkFirstStrategy configs net request cacheName timeout w).2 ∧
  unchanged_or_written (staleWhileRevalidateStrategy configs net request cacheName w).2 ∧
  (∀ name,
     swept name
     = filter (λ entry : string * Response, isExpired configs now entry.2 name = false)
         (default [] (storage !! name))) ∧
  (∀ name entry,
     entry ∈ swept name ↔
     entry ∈ default [] (storage !! name) ∧ isExpired configs now entry.2 name = false) ∧
  (∀ name, configs !! name = None → swept name = default [] (storage !! name)).
Proof.
  intros Hwf unchanged_or_written swept.
  split_and!.
  - intros name. apply (strategies_only_write configs net request cacheName timeout w).
    by left.
  - intros name. apply (strategies_only_write configs net request cacheName timeout w).
    right. by left.
  - intros name. apply (strategies_only_write configs net request cacheName timeout w).
    right. by right.
  - intros name. by apply cleanupCaches_kept.
  - intros name entry. unfold swept. rewrite cleanupCaches_kept by done.
    rewrite list_elem_of_filter. tauto.
  - intros name Hcfg. unfold swept. rewrite cleanupCaches_kept by done.
    by apply kept_unconfigured.
Qed.

(** What [install] precaches is stored as the network gave it. *)
Lemma install_stores_responses_as_fetched
    (net : Request → Promise Response) (w : World) (url : Request) :
  (install net w).1 = Fulfilled () →
  url ∈ ["/"; "/manifest.json"] →
  ∃ precached,
    outcome (net url) = Fulfilled precached ∧
    Cache_match (cacheOf (install net w).2 STATIC_CACHE) url = Some precached.
Proof.
  destruct (caches_open_run STATIC_CACHE w) as (w' & Hopen & _).
  unfold install, cache_addAll. unfold_async. rewrite Hopen. simpl.
  destruct (outcome (net "/")) as [home|] eqn:Hhome; [|done].
  destruct (ok home && negb (Cache_put_refuses home)); [|done].
  destruct (outcome (net "/manifest.json")) as [manifest|] eqn:Hmanifest; [|done].
  destruct (ok manifest && negb (Cache_put_refuses manifest)); [|done].
  simpl. intros _ Hurl. rewrite cacheOf_insert, decide_True by done.
  rewrite !Cache_match_put.
  apply elem_of_cons in Hurl as [->|Hurl].
  - exists home. by rewrite decide_False, decide_True.
  - apply list_elem_of_singleton in Hurl as ->. exists manifest. by rewrite decide_True.
Qed.

(** C10. A cached response without the ['sw-cached-at'] header is never
    expired, at any instant and under any configuration; cache-first serves it
    without calling the network and stale-while-revalidate returns it without
    waiting, however old it is. The responses that [install] precaches are
    stored as the network gave them, so such a response enters the cache
    without a stamp. *)
Theorem unstamped_response_never_expires
    (configs : gmap string CacheConfig) (net : Request → Promise Response)
    (request : Request) (cacheName : string) (response : Response) (w : World) :
  sw_cached_at response = None →
  (∀ configs' now name, isExpired configs' now response name = false) ∧
  (Cache_match (cacheOf w cacheName) request = Some response →
   cacheFirstStrategy configs net request cacheName w = (Fulfilled response, w) ∧
   (staleWhileRevalidateStrategy configs net request cacheName w).1
     = Fulfilled (Some response) ∧
   clock (staleWhileRevalidateStrategy configs net request cacheName w).2 = clock w) ∧
  (∀ w0 url,
     (install net w0).1 = Fulfilled () →
     url ∈ ["/"; "/manifest.json"] →
     outcome (net url) = Fulfilled response →
     Cache_match (cacheOf (install net w0).2 STATIC_CACHE) url = Some response).
Proof.
  intros Hstamp.
  assert (∀ configs' now name, isExpired configs' now response name = false) as Hfresh
    by (intros; unfold isExpired; by rewrite Hstamp).
  split_and!; [done | |].
  - intros Hm.
    destruct (cacheFirstStrategy_run configs net request cacheName w)
      as (_ & _ & Hhit & _).
    destruct (staleWhileRevalidate_run configs net request cacheName w)
      as (_ & _ & Hswr & _).
    destruct (Hswr _ Hm (Hfresh _ _ _)) as (Hres & Hclock & _).
    split_and!; [by apply Hhit | done | done].
  - intros w0 url Hinstalled Hurl Hnet.
    destruct (install_stores_responses_as_fetched net w0 url Hinstalled Hurl)
      as (precached & Hfetched & Hcached).
    congruence.
Qed.

(** ** Failures *)

(** C1, where the code departs from it. With no usable cached entry and a
    failing network, stale-while-revalidate does not reject: the chain's
    [catch] handler logs the warning and returns nothing, so the caller's
    promise is fulfilled with [undefined]; the outer [catch] never runs and
    no cache changes. *)
Theorem staleWhileRevalidate_swallows_network_failure
    (configs : gmap string CacheConfig) (net : Request → Promise Response)
    (request : Request) (cacheName : string) (w : World) (error : Error) :
  (∀ response, Cache_match (cacheOf w cacheName) request = Some response →
               isExpired configs (clock w) response cacheName = true) →
  outcome (net request) = Rejected error →
  let run := staleWhileRevalidateStrategy configs net request cacheName w in
  run.1 = Fulfilled None ∧
  run.1 ≠ Rejected error ∧
  console run.2 = console w ++ [mkLog LevelWarn "Background update failed:" error] ∧
  (∀ name, cacheOf run.2 name = cacheOf w name).
Proof.
  intros Hstale Hnet run.
  destruct (staleWhileRevalidate_run configs net request cacheName w)
    as (_ & Hother & _ & Hmiss).
  destruct (Hmiss Hstale) as (_ & _ & _ & Hfail).
  destruct (Hfail _ Hnet) as (Hres & Hcache & Hlog). fold run in Hres, Hcache, Hlog, Hother.
  split_and!; [done | by rewrite Hres | done |].
  intros name. destruct (decide (name = cacheName)) as [->|Hne]; [done | by apply Hother].
Qed.

(** The rest of C1 holds: a fresh entry is returned at once, with no cache
    changed, while the network call is in flight; once it has settled the
    cache holds the stamped response, if it was [ok] and the cache took it,
    and a failure has been logged and nothing more. Without a usable entry
    the caller waits for the network, and a response is cached (if [ok] and
    taken) and returned. *)
Lemma staleWhileRevalidate_serves_then_refreshes
    (configs : gmap string CacheConfig) (net : Request → Promise Response)
    (request : Request) (cacheName : string) (w : World) (later : Z) :
  let cache := cacheOf w cacheName in
  let arrival := (clock w + settlesAfter (net request))%Z in
  let run := staleWhileRevalidateStrategy configs net request cacheName w in
  let warning error := mkLog LevelWarn "Background update failed:" error in
  (∀ response,
     Cache_match cache request = Some response →
     isExpired configs (clock w) response cacheName = false →
     run.1 = Fulfilled (Some response) ∧ clock run.2 = clock w ∧
     caches run.2 = caches w ∧ console run.2 = console w ∧
     (pending w = [] →
      ((later < arrival)%Z →
       caches (settle configs later run.2) = caches w ∧
       console (settle configs later run.2) = console w) ∧
      ((arrival ≤ later)%Z →
       (∀ networkResponse, outcome (net request) = Fulfilled networkResponse →
          ok networkResponse = true → Cache_put_refuses networkResponse = false →
          cacheOf (settle configs later run.2) cacheName
          = write configs cacheName cache arrival request networkResponse) ∧
       (∀ error, outcome (net request) = Rejected error →
          cacheOf (settle configs later run.2) cacheName = cache ∧
          console (settle configs later run.2) = console w ++ [warning error])))) ∧
  ((∀ response, Cache_match cache request = Some response →
                isExpired configs (clock w) response cacheName = true) →
   clock run.2 = arrival ∧
   (∀ networkResponse, outcome (net request) = Fulfilled networkResponse →
      ok networkResponse = true → Cache_put_refuses networkResponse = false →
      run.1 = Fulfilled (Some networkResponse) ∧
      cacheOf run.2 cacheName = write configs cacheName cache arrival request networkResponse)).
Proof.
  intros cache arrival run warning.
  destruct (staleWhileRevalidate_run configs net request cacheName w)
    as (_ & _ & Hhit & Hmiss).
  fold cache arrival run in Hhit, Hmiss. split.
  - intros response Hm Hfresh.
    destruct (Hhit _ Hm Hfresh) as (Hres & Hclock & Hconsole & Hcaches & Hpending).
    split_and!; try done. intros Hnone. rewrite Hnone in Hpending. simpl in Hpending.
    rewrite (settle_one configs later _ run.2 Hpending).
    unfold due. simpl. fold arrival.
    pose proof (land_run configs (mkTask (clock w) cacheName request (net request))
                  (set_pending [] run.2)) as Hland.
    cbv zeta in Hland. unfold due in Hland. simpl in Hland. fold arrival in Hland.
    destruct Hland as (_ & _ & _ & _ & Hland).
    assert (cacheOf (set_pending [] run.2) cacheName = cache) as Hsame
      by (unfold cacheOf; simpl; by rewrite Hcaches).
    rewrite Hsame in Hland. simpl in Hland. rewrite Hconsole in Hland.
    split.
    + intros Hearly. rewrite decide_False by lia. by simpl.
    + intros Hlate. rewrite decide_True by lia. rewrite cacheOf_set_clock. simpl.
      split.
      * intros networkResponse Hnet Hok Hput. rewrite Hnet, Hok, Hput in Hland.
        by destruct Hland.
      * intros error Hnet. by rewrite Hnet in Hland.
  - intros Hstale. destruct (Hmiss Hstale) as (Hclock & _ & Hok & _).
    split; [done|]. intros networkResponse Hnet Hresp Hput.
    destruct (Hok _ Hnet) as [Hcache Hres]. rewrite Hresp, Hput in Hcache, Hres.
    simpl in *. by destruct Hres.
Qed.

(** ** The offline store and the sync queue *)

Section OfflineFacts.
Import Offline.
Implicit Types (q : list QueueItem) (item : QueueItem).

Lemma filter_within (P : QueueItem → Prop) `{!∀ item, Decision (P item)} q :
  Forall within_retries q → Forall within_retries (filter P q).
Proof.
  rewrite !Forall_forall. intros Hq item Hin.
  apply list_elem_of_filter in Hin as [_ Hin]. by apply Hq.
Qed.

Lemma after_failure_within reason item : within_retries (after_failure reason item).
Proof.
  unfold within_retries, after_failure. case_decide; cbn -[Nat.min]; lia.
Qed.

Lemma enqueue_within item q :
  Forall within_retries q → Forall within_retries (enqueue item q).
Proof.
  intros Hq. unfold enqueue. apply Forall_app. split; [done|].
  repeat constructor. unfold within_retries. simpl. lia.
Qed.

Lemma begin_sync_within itemId q :
  Forall within_retries q → Forall within_retries (begin_sync itemId q).
Proof.
  intros Hq. unfold begin_sync. apply Forall_fmap. eapply Forall_impl; [done|].
  intros item Hitem. simpl. by case_decide.
Qed.

Lemma finish_sync_within itemId result q :
  Forall within_retries q → Forall within_retries (finish_sync itemId result q).
Proof.
  intros Hq. destruct result as [reason|]; simpl.
  - apply Forall_fmap. eapply Forall_impl; [done|].
    intros item Hitem. simpl. case_decide; [apply after_failure_within | done].
  - by apply filter_within.
Qed.

Lemma recover_within q : Forall within_retries q → Forall within_retries (recover q).
Proof.
  intros Hq. unfold recover. apply Forall_fmap. eapply Forall_impl; [done|].
  intros item Hitem. simpl. by case_decide.
Qed.

Lemma drain_loop_within attempt (snapshot : list QueueItem) : ∀ q,
  Forall within_retries q →
  Forall within_retries
    (foldl (λ q' item,
              if decide (status item = pending)
              then finish_sync (id item) (attempt item) (begin_sync (id item) q')
              else q') q snapshot).
Proof.
  induction snapshot as [|item snapshot IH]; intros q Hq; [done|].
  simpl. apply IH. case_decide; [|done].
  by apply finish_sync_within, begin_sync_within.
Qed.

Lemma drain_within attempt q :
  Forall within_retries q → Forall within_retries (drain attempt q).
Proof. apply drain_loop_within. Qed.

Lemma apply_within op q : Forall within_retries q → Forall within_retries (apply op q).
Proof.
  intros Hq. destruct op; simpl.
  - by apply enqueue_within.
  - by apply begin_sync_within.
  - by apply finish_sync_within.
  - by apply drain_within.
  - by apply recover_within.
  - by apply filter_within.
  - constructor.
Qed.

Lemma run_within ops : Forall within_retries (run ops).
Proof.
  unfold run. cut (∀ q, Forall within_retries q →
                        Forall within_retries (foldl (λ q op, apply op q) q ops)).
  { intros H. apply H. constructor. }
  induction ops as [|op ops IH]; intros q Hq; [done|].
  simpl. by apply IH, apply_within.
Qed.

(** A failed item stays through the driver's transitions. *)
Lemma begin_sync_keeps_failed itemId q item :
  item ∈ q → status item = failed → item ∈ begin_sync itemId q.
Proof.
  intros Hin Hfailed. unfold begin_sync. apply list_elem_of_fmap.
  exists item. split; [|done]. rewrite decide_False; [done|].
  intros [_ ?]. congruence.
Qed.

Lemma finish_sync_keeps_failed itemId result q item :
  item ∈ q → status item = failed → item ∈ finish_sync itemId result q.
Proof.
  intros Hin Hfailed. destruct result as [reason|]; simpl.
  - apply list_elem_of_fmap. exists item. split; [|done].
    rewrite decide_False; [done|]. intros [_ ?]. congruence.
  - apply list_elem_of_filter. split; [|done]. intros [_ ?]. congruence.
Qed.

Lemma drain_loop_keeps_failed attempt (snapshot : list QueueItem) item : ∀ q,
  item ∈ q → status item = failed →
  item ∈ foldl (λ q' it,
                  if decide (status it = pending)
                  then finish_sync (id it) (attempt it) (begin_sync (id it) q')
                  else q') q snapshot.
Proof.
  induction snapshot as [|it snapshot IH]; intros q Hin Hfailed; [done|].
  simpl. apply IH; [|done]. case_decide; [|done].
  apply finish_sync_keeps_failed; [|done]. by apply begin_sync_keeps_failed.
Qed.

Lemma drain_keeps_failed attempt q item :
  item ∈ q → status item = failed → item ∈ drain attempt q.
Proof. apply drain_loop_keeps_failed. Qed.

End OfflineFacts.

(** C9. [getConversation] on an id with no stored conversation returns
    [null] ([Ok None]), an explicit absent result and not an error; the only
    error it ever reports is that of a store that is not ready. *)
Theorem getConversation_missing_returns_null
    (db : Offline.Database) (conversationId : string) :
  Offline.conversations db !! conversationId = None →
  Offline.getConversation (Offline.Ready db) conversationId = Offline.Ok None ∧
  (∀ store reason,
     Offline.getConversation store conversationId = Offline.StoreError reason →
     store = Offline.NotReady).
Proof.
  intros Hmissing. split.
  - unfold Offline.getConversation, Offline.store_get. by rewrite Hmissing.
  - intros [|db'] reason; [done|]. unfold Offline.getConversation. simpl. discriminate.
Qed.

(** C6. Whatever operations the queue has seen, every item has
    [retryCount <= maxRetries]; a failed attempt on a syncing item puts it
    back to pending with one more retry while that stays below [maxRetries],
    and marks it failed otherwise; and a failed item stays in the queue,
    unchanged, through every operation but [remove] and [clear]. An item with
    [maxRetries = 3] whose three attempts fail ends failed with
    [retryCount = 3]. *)
Theorem queue_retries_bounded_and_failed_items_persist
    (ops : list Offline.QueueOp) (op : Offline.QueueOp)
    (q : list Offline.QueueItem) (item : Offline.QueueItem) (reason : string) :
  Forall Offline.within_retries (Offline.run ops) ∧
  (let item' := Offline.after_failure reason item in
   Offline.within_retries item' ∧
   (Offline.maxRetries item ≤ S (Offline.retryCount item) →
    Offline.status item' = Offline.failed) ∧
   (S (Offline.retryCount item) < Offline.maxRetries item →
    Offline.status item' = Offline.pending ∧
    Offline.retryCount item' = S (Offline.retryCount item))) ∧
  (item ∈ q → Offline.status item = Offline.syncing →
   Offline.after_failure reason item
   ∈ Offline.finish_sync (Offline.id item) (Some reason) q) ∧
  (item ∈ q → Offline.status item = Offline.failed →
   ¬ Offline.explicit_deletion op → item ∈ Offline.apply op q) ∧
  (let action := Offline.mkItem "a1" Offline.SEND_MESSAGE "{}" 0 0 3 Offline.pending None in
   let offline := λ _ : Offline.QueueItem, Some "offline" in
   Offline.run [Offline.OpEnqueue action; Offline.OpDrain offline;
                Offline.OpDrain offline; Offline.OpDrain offline]
   = [Offline.with_status Offline.failed 3 (Some "offline") action]).
Proof.
  cbv zeta. split_and!.
  - apply run_within.
  - apply after_failure_within.
  - intros Hlast. unfold Offline.after_failure. rewrite decide_False by lia. done.
  - intros Hmore. unfold Offline.after_failure. by rewrite decide_True by lia.
  - intros Hin Hsyncing. unfold Offline.finish_sync. apply list_elem_of_fmap.
    exists item. split; [|done]. by rewrite decide_True.
  - intros Hin Hfailed Hop. destruct op; simpl in *; try done.
    + unfold Offline.enqueue. apply elem_of_app. by left.
    + by apply begin_sync_keeps_failed.
    + by apply finish_sync_keeps_failed.
    + by apply drain_keeps_failed.
    + unfold Offline.recover. apply list_elem_of_fmap. exists item.
      split; [|done]. rewrite decide_False; [done | congruence].
  - by vm_compute.
Qed.

(** ** Instances *)


Lemma writes_never_exceed_maxEntries_witness :
  small_table !! "table" ≫= maxEntries = Some 2 ∧
  NoDup (Cache_keys []) ∧
  length (writes small_table "table" []
            [("/a", sample_response, 1%Z); ("/b", sample_response, 2%Z);
             ("/c", sample_response, 3%Z)]) ≤ 2.
Proof.
  split; [reflexivity|]. split; [apply NoDup_nil_2|].
  destruct (writes_never_exceed_maxEntries small_table "table" 1 []
              [("/a", sample_response, 1%Z); ("/b", sample_response, 2%Z);
               ("/c", sample_response, 3%Z)] 4%Z "/d" sample_response eq_refl
              (NoDup_nil_2 (A := string))) as [Hbound _].
  apply Hbound. left. simpl. lia.
Defined.

Lemma write_same_key_replaces_witness :
  NoDup (Cache_keys [("/api/models", sample_stamped)]) ∧
  entries_for
    (write CACHE_CONFIGS API_CACHE
       (write CACHE_CONFIGS API_CACHE [("/api/models", sample_stamped)] 10
          "/api/models" sample_response) 20 "/api/models" sample_response)
    "/api/models" = 1.
Proof.
  assert (NoDup (Cache_keys [("/api/models", sample_stamped)])) as Hnd
    by apply NoDup_singleton.
  split; [exact Hnd|].
  apply (write_same_key_replaces CACHE_CONFIGS API_CACHE [("/api/models", sample_stamped)]
           "/api/models" sample_response sample_response 10 20 Hnd).
Defined.

Lemma isExpired_compares_age_with_maxAge_witness :
  sw_cached_at sample_stamped = Some 0%Z ∧
  CACHE_CONFIGS !! API_CACHE ≫= maxAgeSeconds = Some 86400%Z ∧
  isExpired CACHE_CONFIGS 86400001 sample_stamped API_CACHE = true.
Proof.
  split; [reflexivity|]. split; [reflexivity|].
  destruct (isExpired_compares_age_with_maxAge CACHE_CONFIGS 86400001 0 sample_stamped
              API_CACHE eq_refl) as (Hcompare & _ & _).
  apply (Hcompare 86400%Z); [reflexivity | lia | lia].
Defined.




Lemma staleWhileRevalidate_swallows_network_failure_witness :
  (∀ response,
     Cache_match (cacheOf empty_world PAGES_CACHE) "/" = Some response →
     isExpired CACHE_CONFIGS (clock empty_world) response PAGES_CACHE = true) ∧
  outcome (offline_network "/") = Rejected (Err "Failed to fetch") ∧
  (staleWhileRevalidateStrategy CACHE_CONFIGS offline_network "/" PAGES_CACHE empty_world).1
  = Fulfilled None.
Proof.
  assert (∀ response,
            Cache_match (cacheOf empty_world PAGES_CACHE) "/" = Some response →
            isExpired CACHE_CONFIGS (clock empty_world) response PAGES_CACHE = true)
    as Hnone by (intros response Hm; vm_compute in Hm; discriminate).
  split; [exact Hnone|]. split; [reflexivity|].
  apply (staleWhileRevalidate_swallows_network_failure CACHE_CONFIGS offline_network "/"
           PAGES_CACHE empty_world (Err "Failed to fetch") Hnone eq_refl).
Defined.

Lemma reads_keep_and_cleanup_deletes_expired_witness :
  distinct_keys (caches sample_world) ∧
  default [] (cleanupCaches CACHE_CONFIGS 86400001 (caches sample_world) !! API_CACHE)
  = filter (λ entry : string * Response,
              isExpired CACHE_CONFIGS 86400001 entry.2 API_CACHE = false)
      [("/api/models", sample_stamped)].
Proof.
  assert (distinct_keys (caches sample_world)) as Hwf.
  { intros name cache Hcache. unfold sample_world in Hcache. simpl in Hcache.
    apply lookup_singleton_Some in Hcache as [_ <-].
    apply NoDup_singleton. }
  split; [exact Hwf|].
  destruct (reads_keep_and_cleanup_deletes_expired CACHE_CONFIGS offline_network
              "/api/models" API_CACHE None sample_world 86400001 (caches sample_world) Hwf)
    as (_ & _ & _ & Hswept & _).
  apply (Hswept API_CACHE).
Defined.

Lemma unstamped_response_never_expires_witness :
  sw_cached_at sample_response = None ∧
  isExpired CACHE_CONFIGS 999999999999 sample_response STATIC_CACHE = false.
Proof.
  split; [reflexivity|].
  apply (unstamped_response_never_expires CACHE_CONFIGS offline_network "/"
           STATIC_CACHE sample_response empty_world eq_refl).
Defined.

Lemma getConversation_missing_returns_null_witness :
  Offline.conversations (Offline.mkDatabase ∅ []) !! "missing" = None ∧
  Offline.getConversation (Offline.Ready (Offline.mkDatabase ∅ [])) "missing"
  = Offline.Ok None.
Proof.
  split; [reflexivity|].
  apply (getConversation_missing_returns_null (Offline.mkDatabase ∅ []) "missing").
  reflexivity.
Defined.

Lemma queue_retries_bounded_and_failed_items_persist_witness :
  sample_failed ∈ [sample_failed] ∧
  Offline.status sample_failed = Offline.failed ∧
  sample_failed ∈ Offline.drain (λ _, Some "offline") [sample_failed].
Proof.
  assert (sample_failed ∈ [sample_failed]) as Hin by (apply list_elem_of_singleton; reflexivity).
  split; [exact Hin|]. split; [reflexivity|].
  destruct (queue_retries_bounded_and_failed_items_persist []
              (Offline.OpDrain (λ _, Some "offline")) [sample_failed] sample_failed
              "offline") as (_ & _ & _ & Hpersist & _).
  apply Hpersist; [exact Hin | reflexivity | simpl; tauto].
Defined.

(** * Further properties of the worker *)

(** ** Expiry over time *)

Lemma isExpired_stays_expired
    (configs : gmap string CacheConfig) (now later : Z) (response : Response)
    (cacheName : string) :
  (now ≤ later)%Z →
  isExpired configs now response cacheName = true →
  isExpired configs later response cacheName = true.
Proof.
  intros Hlater. unfold isExpired.
  destruct (sw_cached_at response) as [cachedTime|]; [|done].
  destruct (configs !! cacheName ≫= maxAgeSeconds) as [maxAge|]; [|done].
  case_decide; [done|]. rewrite !bool_decide_eq_true. lia.
Qed.

(** X1. Expiry is monotone in time: a response that [isExpired] reports
    expired at one instant is reported expired at every later instant, and
    one it reports fresh was fresh at every earlier instant, for every
    table. *)
Theorem isExpired_monotone_in_time
    (configs : gmap string CacheConfig) (now later : Z) (response : Response)
    (cacheName : string) :
  (now ≤ later)%Z →
  (isExpired configs now response cacheName = true →
   isExpired configs later response cacheName = true) ∧
  (isExpired configs later response cacheName = false →
   isExpired configs now response cacheName = false).
Proof.
  intros Hlater. split; [by apply isExpired_stays_expired|].
  intros Hfresh. destruct (isExpired configs now response cacheName) eqn:Hnow; [|done].
  by rewrite (isExpired_stays_expired _ _ _ _ _ Hlater Hnow) in Hfresh.
Qed.

(** X2. A response stamped by [addTimestamp] at one instant is fresh for
    exactly [maxAgeSeconds * 1000] milliseconds from that instant in a table
    with a configured maximum age: it is expired [elapsed] ms later exactly
    when [elapsed] exceeds that span, whatever stamp the response carried
    before, and stamping changes neither its status nor its body nor its
    other headers. *)
Theorem addTimestamp_starts_the_age
    (configs : gmap string CacheConfig) (cacheName : string) (maxAge now elapsed : Z)
    (response : Response) :
  configs !! cacheName ≫= maxAgeSeconds = Some maxAge →
  maxAge ≠ 0%Z →
  (isExpired configs (now + elapsed) (addTimestamp now response) cacheName = true ↔
   (elapsed > maxAge * 1000)%Z) ∧
  ok (addTimestamp now response) = ok response ∧
  body (addTimestamp now response) = body response ∧
  headers (addTimestamp now response) = headers response.
Proof.
  intros Hcfg Hnz. split; [|done].
  unfold isExpired. simpl. rewrite Hcfg. case_decide; [done|].
  rewrite bool_decide_eq_true. lia.
Qed.

(** ** What the strategies keep and leave alone *)

Lemma distinct_keys_cacheOf (w : World) :
  distinct_keys (caches w) ↔ ∀ name, NoDup (Cache_keys (cacheOf w name)).
Proof.
  unfold distinct_keys, cacheOf. split.
  - intros Hwf name. destruct (caches w !! name) as [cache|] eqn:Hcache; simpl.
    + by eapply Hwf.
    + constructor.
  - intros Hwf name cache Hcache. specialize (Hwf name). by rewrite Hcache in Hwf.
Qed.




(** X5. Network-first and stale-while-revalidate call the network exactly
    once on every request, also when the answer comes from the cache;
    cache-first calls it at most once, and not at all exactly when it holds
    an entry for the request that is not expired. *)
Theorem strategies_fetch_at_most_once
    (configs : gmap string CacheConfig) (net : Request → Promise Response)
    (request : Request) (cacheName : string) (timeout : option Z) (w : World) :
  fetched (networkFirstStrategy configs net request cacheName timeout w).2
  = fetched w ++ [request] ∧
  fetched (staleWhileRevalidateStrategy configs net request cacheName w).2
  = fetched w ++ [request] ∧
  (fetched (cacheFirstStrategy configs net request cacheName w).2 = fetched w ∨
   fetched (cacheFirstStrategy configs net request cacheName w).2 = fetched w ++ [request]) ∧
  (fetched (cacheFirstStrategy configs net request cacheName w).2 = fetched w ↔
   ∃ response, Cache_match (cacheOf w cacheName) request = Some response ∧
               isExpired configs (clock w) response cacheName = false).
Proof.
  destruct (networkFirstStrategy_run configs net request cacheName timeout w)
    as (Hnetwork & _).
  destruct (staleWhileRevalidate_run configs net request cacheName w) as (Hswr & _).
  destruct (cacheFirstStrategy_run configs net request cacheName w)
    as (_ & _ & Hhit & Hmiss).
  split_and!; [done | done | |].
  - destruct (usable_or_not configs (clock w) (cacheOf w cacheName) request cacheName)
      as [(cached & Hm & Hfresh) | Hstale].
    + left. by rewrite (Hhit _ Hm Hfresh).
    + right. by apply Hmiss.
  - split.
    + intros Hnone.
      destruct (usable_or_not configs (clock w) (cacheOf w cacheName) request cacheName)
        as [Husable | Hstale]; [done|].
      destruct (Hmiss Hstale) as [Hfetched _]. rewrite Hfetched in Hnone.
      apply (f_equal length) in Hnone. rewrite length_app in Hnone. simpl in Hnone. lia.
    + intros (cached & Hm & Hfresh). by rewrite (Hhit _ Hm Hfresh).
Qed.

(** X6. Network-first never makes its caller wait beyond the timeout: with
    a timeout that [setTimeout] takes as it is given, a non-negative 32-bit
    number (3000 ms when none is given), the caller resumes after the
    smaller of the network's latency and the timeout; with a negative
    timeout, which [setTimeout] reads as 0, it resumes at once. *)
Theorem networkFirstStrategy_waits_at_most_the_timeout
    (configs : gmap string CacheConfig) (net : Request → Promise Response)
    (request : Request) (cacheName : string) (timeout : option Z) (w : World) :
  (0 ≤ settlesAfter (net request))%Z →
  let limit := default 3000%Z timeout in
  let run := networkFirstStrategy configs net request cacheName timeout w in
  ((0 ≤ limit < 2 ^ 31)%Z →
   clock run.2 = (clock w + Z.min (settlesAfter (net request)) limit)%Z) ∧
  ((- 2 ^ 31 ≤ limit < 0)%Z → clock run.2 = clock w).
Proof.
  intros Hlatency limit run.
  destruct (networkFirstStrategy_run configs net request cacheName timeout w)
    as (_ & _ & Hnetwork & Htimeout & _).
  fold limit run in Hnetwork, Htimeout.
  assert (∀ delay, setTimeout_delay limit = delay →
            clock run.2 = (clock w + Z.min (settlesAfter (net request)) delay)%Z)
    as Hresumes.
  { intros delay Hdelay. rewrite Hdelay in Hnetwork, Htimeout.
    destruct (decide (settlesAfter (net request) ≤ delay)%Z) as [Hle|Hgt].
    - destruct (Hnetwork Hle) as [-> _]. lia.
    - destruct Htimeout as [-> _]; lia. }
  split; intros Hrange.
  - apply Hresumes. unfold setTimeout_delay, ToInt32.
    rewrite (Z.mod_small (limit + 2 ^ 31) (2 ^ 32)) by lia. lia.
  - rewrite (Hresumes 0%Z); [lia|]. unfold setTimeout_delay, ToInt32.
    rewrite (Z.mod_small (limit + 2 ^ 31) (2 ^ 32)) by lia. lia.
Qed.

(** ** One request after another *)

Section Successive.
Context (configs : gmap string CacheConfig).
Implicit Types (net : Request → Promise Response) (w : World).

(** The entry a write leaves under the request, read back from the world. *)
Lemma stored_entry_read_back w' cache cacheName arrival request response :
  NoDup (Cache_keys cache) →
  cacheOf w' cacheName
  = (if ok response && negb (Cache_put_refuses response)
     then write configs cacheName cache arrival request response
     else cache) →
  ok response = true →
  Cache_put_refuses response = false →
  ∀ later,
    Cache_match (cacheOf (set_clock later w') cacheName) request
    = Some (addTimestamp arrival response).
Proof.
  intros Hnd Hcache Hok Hput later. rewrite cacheOf_set_clock, Hcache, Hok, Hput.
  by apply (write_match_self configs cacheName).
Qed.

Lemma cacheFirst_stores net request cacheName w response :
  NoDup (Cache_keys (cacheOf w cacheName)) →
  (∀ r, Cache_match (cacheOf w cacheName) request = Some r →
        isExpired configs (clock w) r cacheName = true) →
  outcome (net request) = Fulfilled response →
  ok response = true →
  Cache_put_refuses response = false →
  ∀ later,
    Cache_match
      (cacheOf (set_clock later (cacheFirstStrategy configs net request cacheName w).2)
         cacheName) request
    = Some (addTimestamp (clock w + settlesAfter (net request)) response).
Proof.
  intros Hnd Hstale Hnet Hok Hput.
  destruct (cacheFirstStrategy_run configs net request cacheName w)
    as (_ & _ & _ & Hmiss).
  destruct (Hmiss Hstale) as (_ & _ & Hwritten & _).
  destruct (Hwritten _ Hnet) as [Hcache _].
  by eapply stored_entry_read_back.
Qed.

Lemma networkFirst_stores net request cacheName timeout w response :
  NoDup (Cache_keys (cacheOf w cacheName)) →
  (settlesAfter (net request) ≤ setTimeout_delay (default 3000 timeout))%Z →
  outcome (net request) = Fulfilled response →
  ok response = true →
  Cache_put_refuses response = false →
  ∀ later,
    Cache_match
      (cacheOf
         (set_clock later (networkFirstStrategy configs net request cacheName timeout w).2)
         cacheName) request
    = Some (addTimestamp (clock w + settlesAfter (net request)) response).
Proof.
  intros Hnd Hfast Hnet Hok Hput.
  destruct (networkFirstStrategy_run configs net request cacheName timeout w)
    as (_ & _ & Hnetwork & _).
  destruct (Hnetwork Hfast) as (_ & Hwritten & _).
  destruct (Hwritten _ Hnet) as [Hcache _].
  by eapply stored_entry_read_back.
Qed.

(** A timeout that [setTimeout] takes as it is given. *)
Lemma setTimeout_delay_in_range (timeout : Z) :
  (0 ≤ timeout < 2 ^ 31)%Z → setTimeout_delay timeout = timeout.
Proof.
  intros Hrange. unfold setTimeout_delay, ToInt32.
  rewrite (Z.mod_small (timeout + 2 ^ 31) (2 ^ 32)) by lia. lia.
Qed.

(** Stale-while-revalidate on a usable entry. *)
Lemma staleWhileRevalidate_hit net request cacheName w response :
  Cache_match (cacheOf w cacheName) request = Some response →
  isExpired configs (clock w) response cacheName = false →
  (staleWhileRevalidateStrategy configs net request cacheName w).1
  = Fulfilled (Some response) ∧
  clock (staleWhileRevalidateStrategy configs net request cacheName w).2 = clock w.
Proof.
  intros Hm Hfresh.
  destruct (staleWhileRevalidate_run configs net request cacheName w)
    as (_ & _ & Hhit & _).
  by destruct (Hhit _ Hm Hfresh) as (Hres & Hclock & _).
Qed.

(** What the cache holds for the request once the network's answer to a
    stale-while-revalidate call has been dealt with. *)
Lemma staleWhileRevalidate_stores net request cacheName w response later :
  NoDup (Cache_keys (cacheOf w cacheName)) →
  pending w = [] →
  outcome (net request) = Fulfilled response →
  ok response = true →
  Cache_put_refuses response = false →
  (clock w + settlesAfter (net request) ≤ later)%Z →
  let settled :=
    settle configs later (staleWhileRevalidateStrategy configs net request cacheName w).2 in
  clock settled = later ∧
  Cache_match (cacheOf settled cacheName) request
  = Some (addTimestamp (clock w + settlesAfter (net request)) response).
Proof.
  intros Hnd Hnone Hnet Hok Hput Hlate settled. unfold settled.
  destruct (staleWhileRevalidate_run configs net request cacheName w)
    as (_ & _ & Hhit & Hmiss).
  destruct (usable_or_not configs (clock w) (cacheOf w cacheName) request cacheName)
    as [(cached & Hm & Hfresh) | Hstale].
  - destruct (Hhit _ Hm Hfresh) as (_ & _ & _ & Hcaches & Hpending).
    rewrite Hnone in Hpending. simpl in Hpending.
    rewrite (settle_one configs later _ _ Hpending).
    unfold due. simpl. rewrite decide_True by lia. split; [done|].
    pose proof (land_run configs (mkTask (clock w) cacheName request (net request))
                  (set_pending []
                     (staleWhileRevalidateStrategy configs net request cacheName w).2))
      as Hland.
    cbv zeta in Hland. unfold due in Hland. simpl in Hland.
    destruct Hland as (_ & _ & _ & _ & Hland). rewrite Hnet, Hok, Hput in Hland.
    destruct Hland as [Hland _]. rewrite cacheOf_set_clock, Hland.
    apply (write_match_self configs cacheName).
    unfold cacheOf. simpl. by rewrite Hcaches.
  - destruct (Hmiss Hstale) as (_ & Hpending & Hwritten & _).
    rewrite Hnone in Hpending. rewrite (settle_none configs later _ Hpending).
    split; [done|]. destruct (Hwritten _ Hnet) as [Hcache _].
    by eapply stored_entry_read_back.
Qed.

End Successive.

(** X7. Cache-first, twice: when a request misses and the network answers
    with an [ok] response that the cache takes, the same request made again
    at any later instant at which the stored copy is not expired is answered
    from the cache with that copy, the response with the instant of its
    arrival as its stamp, without any network call, whatever the network
    would do then. *)
Theorem cacheFirstStrategy_miss_then_hit
    (configs : gmap string CacheConfig) (net net' : Request → Promise Response)
    (request : Request) (cacheName : string) (w : World) (response : Response)
    (later : Z) :
  NoDup (Cache_keys (cacheOf w cacheName)) →
  (∀ r, Cache_match (cacheOf w cacheName) request = Some r →
        isExpired configs (clock w) r cacheName = true) →
  outcome (net request) = Fulfilled response →
  ok response = true →
  Cache_put_refuses response = false →
  pending w = [] →
  (clock w + settlesAfter (net request) ≤ later)%Z →
  let first := cacheFirstStrategy configs net request cacheName w in
  let stored :=
    {| status := status response; statusText := statusText response;
       body := body response; headers := headers response;
       sw_cached_at := Some (clock w + settlesAfter (net request))%Z |} in
  let again := settle configs later first.2 in
  isExpired configs later stored cacheName = false →
  first.1 = Fulfilled response ∧
  cacheFirstStrategy configs net' request cacheName again = (Fulfilled stored, again).
Proof.
  intros Hnd Hstale Hnet Hok Hput Hnone Hlate first stored again Hfresh.
  destruct (cacheFirstStrategy_run configs net request cacheName w)
    as (_ & Hpending & _ & Hmiss).
  destruct (Hmiss Hstale) as (_ & _ & Hwritten & _).
  destruct (Hwritten _ Hnet) as [_ Hres]. rewrite Hok, Hput in Hres. simpl in Hres.
  destruct Hres as [Hres _]. split; [done|].
  unfold again. rewrite settle_none by (etrans; [exact Hpending | exact Hnone]).
  apply cacheFirst_hit; [|done].
  by apply (cacheFirst_stores configs net request cacheName w response).
Qed.

(** X8. Network-first, online then offline: once the network has answered a
    request in time with an [ok] response that the cache takes, the same
    request made when the network fails or does not answer within the
    timeout is answered with the stored copy of that response, however old
    it has become. *)
Theorem networkFirstStrategy_online_then_offline
    (configs : gmap string CacheConfig) (net net' : Request → Promise Response)
    (request : Request) (cacheName : string) (timeout timeout' : option Z)
    (w : World) (response : Response) (later : Z) :
  NoDup (Cache_keys (cacheOf w cacheName)) →
  (0 ≤ default 3000 timeout < 2 ^ 31)%Z →
  (settlesAfter (net request) < default 3000 timeout)%Z →
  outcome (net request) = Fulfilled response →
  ok response = true →
  Cache_put_refuses response = false →
  pending w = [] →
  (clock w + settlesAfter (net request) ≤ later)%Z →
  ((0 ≤ default 3000 timeout' < 2 ^ 31)%Z ∧
   (default 3000 timeout' < settlesAfter (net' request))%Z) ∨
  (∃ error, outcome (net' request) = Rejected error) →
  let first := networkFirstStrategy configs net request cacheName timeout w in
  let stored :=
    {| status := status response; statusText := statusText response;
       body := body response; headers := headers response;
       sw_cached_at := Some (clock w + settlesAfter (net request))%Z |} in
  first.1 = Fulfilled response ∧
  (networkFirstStrategy configs net' request cacheName timeout'
     (settle configs later first.2)).1
  = Fulfilled stored.
Proof.
  intros Hnd Hrange Hfast Hnet Hok Hput Hnone Hlate Hoffline first stored.
  pose proof (setTimeout_delay_in_range _ Hrange) as Hdelay.
  destruct (networkFirstStrategy_run configs net request cacheName timeout w)
    as (_ & _ & Hnetwork & _ & Hpending & _).
  destruct Hnetwork as (_ & Hwritten & _); [lia|].
  destruct (Hwritten _ Hnet) as [_ Hres]. rewrite Hok, Hput in Hres. simpl in Hres.
  split; [done|]. rewrite settle_none by (etrans; [exact Hpending | exact Hnone]).
  pose proof (networkFirst_stores configs net request cacheName timeout w response
                Hnd ltac:(lia) Hnet Hok Hput later) as Hstored.
  fold first in Hstored.
  destruct (networkFirstStrategy_run configs net' request cacheName timeout'
              (set_clock later first.2)) as (_ & _ & Hnetwork' & Htimeout' & _).
  destruct (decide (settlesAfter (net' request)
                    ≤ setTimeout_delay (default 3000 timeout'))%Z) as [Hle|Hgt].
  - destruct Hoffline as [[Hrange' Hslow] | [error Hfail]].
    + rewrite (setTimeout_delay_in_range _ Hrange') in Hle. lia.
    + destruct (Hnetwork' Hle) as (_ & _ & Hfallback).
      destruct (Hfallback _ Hfail) as [-> _]. by rewrite Hstored.
  - destruct Htimeout' as (_ & -> & _); [lia|]. by rewrite Hstored.
Qed.

(** X9. Stale-while-revalidate is stale at most once, from the moment the
    refresh has landed: after a call, with no other refresh in flight,
    during which the network answers with an [ok] response that the cache
    takes, a call made once that answer has arrived, at an instant at which
    the stored copy is not expired, returns that copy without waiting. A
    call made before the answer has arrived is still served the entry that
    the first call was served, if that is not expired by then. *)
Theorem staleWhileRevalidateStrategy_serves_the_refresh
    (configs : gmap string CacheConfig) (net net' : Request → Promise Response)
    (request : Request) (cacheName : string) (w : World) (response : Response)
    (later : Z) :
  NoDup (Cache_keys (cacheOf w cacheName)) →
  pending w = [] →
  outcome (net request) = Fulfilled response →
  ok response = true →
  Cache_put_refuses response = false →
  let first := staleWhileRevalidateStrategy configs net request cacheName w in
  let arrival := (clock w + settlesAfter (net request))%Z in
  let stored :=
    {| status := status response; statusText := statusText response;
       body := body response; headers := headers response;
       sw_cached_at := Some arrival |} in
  let again := staleWhileRevalidateStrategy configs net' request cacheName
                 (settle configs later first.2) in
  ((arrival ≤ later)%Z →
   isExpired configs later stored cacheName = false →
   again.1 = Fulfilled (Some stored) ∧ clock again.2 = later) ∧
  ((clock w ≤ later < arrival)%Z →
   ∀ cached,
     Cache_match (cacheOf w cacheName) request = Some cached →
     isExpired configs (clock w) cached cacheName = false →
     isExpired configs later cached cacheName = false →
     first.1 = Fulfilled (Some cached) ∧
     again.1 = Fulfilled (Some cached) ∧ clock again.2 = later).
Proof.
  intros Hnd Hnone Hnet Hok Hput first arrival stored again. split.
  - intros Hlate Hfresh.
    pose proof (staleWhileRevalidate_stores configs net request cacheName w response
                  later Hnd Hnone Hnet Hok Hput Hlate) as Hstored.
    cbv zeta in Hstored. fold first in Hstored. destruct Hstored as [Hclock Hstored].
    destruct (staleWhileRevalidate_hit configs net' request cacheName
                (settle configs later first.2) stored Hstored) as [Hres Hclock'].
    + by rewrite Hclock.
    + split; [done|]. unfold again. by rewrite Hclock'.
  - intros Hearly cached Hm Hfresh Hfresh'.
    destruct (staleWhileRevalidate_run configs net request cacheName w)
      as (_ & _ & Hhit & _).
    destruct (Hhit _ Hm Hfresh) as (Hres & _ & _ & Hcaches & Hpending).
    fold first in Hres, Hcaches, Hpending.
    rewrite Hnone in Hpending. simpl in Hpending. split; [done|].
    assert (settle configs later first.2 = set_clock later first.2) as Hsettled.
    { rewrite (settle_one configs later _ _ Hpending). unfold due. simpl.
      by rewrite decide_False by lia. }
    destruct (staleWhileRevalidate_hit configs net' request cacheName
                (settle configs later first.2) cached) as [Hagain Hclock].
    + rewrite Hsettled, cacheOf_set_clock. unfold cacheOf. by rewrite Hcaches.
    + by rewrite Hsettled.
    + split; [done|]. unfold again. by rewrite Hclock, Hsettled.
Qed.

(** ** The sweeps and the storage *)

Section Sweeps.
Context (configs : gmap string CacheConfig).
Implicit Types (cache : Cache) (storage : CacheStorage).

(** The entries a sweep at [now] keeps in the cache [cacheName]. *)
Local Abbreviation fresh_at now cacheName :=
  (filter (λ entry : string * Response,
             isExpired configs now entry.2 cacheName = false)).

(** The outer loop of the sweep on the caches that exist: the caches stay,
    their entries are filtered. *)
Lemma cleanupCaches_loop_lookup now (names : list string) : ∀ storage,
  distinct_keys storage →
  (∀ n, n ∈ names → is_Some (storage !! n)) →
  ∀ cacheName,
    foldl
      (λ storage' cacheName,
         match configs !! cacheName with
         | None => storage'
         | Some _ =>
             let cache := default [] (storage' !! cacheName) in
             <[cacheName := cleanupCache configs now cacheName cache]> storage'
         end) storage names !! cacheName
    = if decide (cacheName ∈ names)
      then fresh_at now cacheName <$> storage !! cacheName
      else storage !! cacheName.
Proof.
  induction names as [|n names IH]; intros storage Hwf Hdom cacheName.
  - destruct (decide (cacheName ∈ [])) as [Hin|_]; [by apply not_elem_of_nil in Hin | done].
  - cbn [foldl].
    match goal with |- context [foldl _ ?s names] => set (storage1 := s) end.
    destruct (Hdom n) as [cache Hcache]; [left|].
    assert (∀ name', storage1 !! name'
                     = if decide (name' = n) then Some (fresh_at now n cache)
                       else storage !! name') as Hstep.
    { intros name'. unfold storage1. destruct (configs !! n) eqn:Hcfg.
      - rewrite lookup_insert. case_decide; case_decide; simplify_eq; try done.
        rewrite Hcache. simpl. f_equal. apply cleanupCache_kept. by eapply Hwf.
      - case_decide; [subst|done]. by rewrite Hcache, kept_unconfigured. }
    assert (distinct_keys storage1) as Hwf1.
    { intros name' cache'. rewrite Hstep. case_decide; [|by apply Hwf].
      intros [= <-]. apply kept_NoDup. by eapply Hwf. }
    assert (∀ n', n' ∈ names → is_Some (storage1 !! n')) as Hdom1.
    { intros n' Hn'. rewrite Hstep. case_decide; [done|]. apply Hdom. by right. }
    etrans; [exact (IH storage1 Hwf1 Hdom1 cacheName)|]. rewrite (Hstep cacheName).
    destruct (decide (cacheName = n)) as [->|Hne].
    + rewrite (decide_True (P := n ∈ n :: names)) by left. rewrite Hcache. simpl.
      case_decide; [by rewrite kept_idemp | done].
    + case_decide as Hin.
      * by rewrite decide_True by by right.
      * rewrite decide_False; [done|]. rewrite not_elem_of_cons. tauto.
Qed.

Lemma cleanupCaches_lookup now storage cacheName :
  distinct_keys storage →
  cleanupCaches configs now storage !! cacheName
  = fresh_at now cacheName <$> storage !! cacheName.
Proof.
  intros Hwf. unfold cleanupCaches. rewrite cleanupCaches_loop_lookup; [|done|].
  - case_decide as Hin; [done|].
    destruct (storage !! cacheName) as [cache|] eqn:Hcache; [|done].
    exfalso. apply Hin. apply list_elem_of_fmap. exists (cacheName, cache).
    split; [done|]. by apply elem_of_map_to_list.
  - intros n Hn. apply list_elem_of_fmap in Hn as ([n' cache] & -> & Hn).
    apply elem_of_map_to_list in Hn. by eexists.
Qed.

Lemma cleanupCaches_distinct_keys now storage :
  distinct_keys storage → distinct_keys (cleanupCaches configs now storage).
Proof.
  intros Hwf cacheName cache. rewrite cleanupCaches_lookup by done.
  destruct (storage !! cacheName) as [cache'|] eqn:Hcache; [|done].
  intros [= <-]. apply kept_NoDup. by eapply Hwf.
Qed.

Lemma fresh_at_later now later cacheName cache :
  (now ≤ later)%Z →
  fresh_at later cacheName (fresh_at now cacheName cache) = fresh_at later cacheName cache.
Proof.
  intros Hlater. induction cache as [|entry rest IH]; [done|].
  rewrite (filter_cons _ entry rest). case_decide as Hnow.
  - rewrite !filter_cons. case_decide; by rewrite IH.
  - rewrite IH. rewrite filter_cons_False; [done|].
    intros Hfresh. apply Hnow.
    destruct (isExpired configs now entry.2 cacheName) eqn:Hexp; [|done].
    by rewrite (isExpired_stays_expired _ _ _ _ _ Hlater Hexp) in Hfresh.
Qed.

(** The loop of [cleanupOldCaches]. *)
Lemma delete_all_lookup (names : list string) : ∀ storage cacheName,
  foldl (λ storage' n, delete n storage') storage names !! cacheName
  = if decide (cacheName ∈ names) then None else storage !! cacheName.
Proof.
  induction names as [|n names IH]; intros storage cacheName.
  - destruct (decide (cacheName ∈ [])) as [Hin|_]; [by apply not_elem_of_nil in Hin | done].
  - simpl. rewrite IH, lookup_delete.
    destruct (decide (cacheName ∈ names)) as [Hin|Hnotin].
    + by rewrite decide_True by by right.
    + destruct (decide (n = cacheName)) as [->|Hne].
      * by rewrite decide_True by left.
      * rewrite decide_False; [done|]. rewrite not_elem_of_cons. split; [congruence|done].
Qed.

Lemma cleanupOldCaches_lookup storage cacheName :
  cleanupOldCaches configs storage !! cacheName
  = if decide (configs !! cacheName = None ∧ includes "cache" cacheName = true)
    then None else storage !! cacheName.
Proof.
  unfold cleanupOldCaches. rewrite delete_all_lookup.
  case_decide as Hold.
  - apply list_elem_of_filter in Hold as [Hold _]. by rewrite decide_True.
  - case_decide as Hold'; [|done].
    destruct (storage !! cacheName) as [cache|] eqn:Hcache; [|done].
    exfalso. apply Hold. apply list_elem_of_filter. split; [done|].
    apply list_elem_of_fmap. exists (cacheName, cache).
    split; [done|]. by apply elem_of_map_to_list.
Qed.

Lemma cleanupOldCaches_distinct_keys storage :
  distinct_keys storage → distinct_keys (cleanupOldCaches configs storage).
Proof.
  intros Hwf cacheName cache. rewrite cleanupOldCaches_lookup.
  case_decide; [done | apply Hwf].
Qed.

End Sweeps.

(** X10. The cleanup sweep is idempotent and keeps the storage well formed:
    sweeping again at the same instant changes nothing; the sweep deletes
    entries but no cache and creates none; no cache grows; and keys stay
    distinct. *)
Theorem cleanupCaches_idempotent
    (configs : gmap string CacheConfig) (now : Z) (storage : CacheStorage) :
  distinct_keys storage →
  let swept := cleanupCaches configs now storage in
  cleanupCaches configs now swept = swept ∧
  distinct_keys swept ∧
  dom swept = dom storage ∧
  (∀ cacheName,
     length (default [] (swept !! cacheName)) ≤ length (default [] (storage !! cacheName))).
Proof.
  intros Hwf swept.
  assert (distinct_keys swept) as Hwf' by by apply cleanupCaches_distinct_keys.
  split_and!; [| done | |].
  - apply map_eq. intros cacheName. rewrite cleanupCaches_lookup by done.
    unfold swept. rewrite cleanupCaches_lookup by done.
    destruct (storage !! cacheName) as [cache|]; [|done]. simpl.
    by rewrite (fresh_at_later configs now now) by lia.
  - apply set_eq. intros cacheName. rewrite !elem_of_dom. unfold swept.
    rewrite cleanupCaches_lookup by done. by rewrite fmap_is_Some.
  - intros cacheName. unfold swept. rewrite cleanupCaches_lookup by done.
    destruct (storage !! cacheName) as [cache|]; [|done]. simpl. apply length_filter.
Qed.

(** X11. Sweeps compose over time: a sweep followed by a sweep at a later
    instant leaves the storage exactly as the later sweep alone would have
    left it. *)
Theorem cleanupCaches_later_sweep_subsumes
    (configs : gmap string CacheConfig) (now later : Z) (storage : CacheStorage) :
  distinct_keys storage →
  (now ≤ later)%Z →
  cleanupCaches configs later (cleanupCaches configs now storage)
  = cleanupCaches configs later storage.
Proof.
  intros Hwf Hlater. apply map_eq. intros cacheName.
  rewrite !cleanupCaches_lookup by first [done | by apply cleanupCaches_distinct_keys].
  destruct (storage !! cacheName) as [cache|]; [|done]. simpl.
  by rewrite fresh_at_later.
Qed.

(** X12. [cleanupOldCaches] deletes exactly the caches whose name is not a
    key of the configuration table and contains ['cache']: a configured
    cache survives with all its entries, so does any cache whose name lacks
    ['cache'], every cache left is of one of these two kinds, and running it
    again changes nothing. *)
Theorem cleanupOldCaches_keeps_current_caches
    (configs : gmap string CacheConfig) (storage : CacheStorage) :
  let kept := cleanupOldCaches configs storage in
  (∀ cacheName, is_Some (configs !! cacheName) → kept !! cacheName = storage !! cacheName) ∧
  (∀ cacheName, includes "cache" cacheName = false →
                kept !! cacheName = storage !! cacheName) ∧
  (∀ cacheName, configs !! cacheName = None → includes "cache" cacheName = true →
                kept !! cacheName = None) ∧
  kept ⊆ storage ∧
  cleanupOldCaches configs kept = kept.
Proof.
  intros kept. split_and!.
  - intros cacheName [config Hcfg]. unfold kept. rewrite cleanupOldCaches_lookup.
    rewrite decide_False; [done|]. intros [? _]. congruence.
  - intros cacheName Hname. unfold kept. rewrite cleanupOldCaches_lookup.
    rewrite decide_False; [done|]. intros [_ ?]. congruence.
  - intros cacheName Hcfg Hname. unfold kept. rewrite cleanupOldCaches_lookup.
    by rewrite decide_True.
  - apply map_subseteq_spec. intros cacheName cache. unfold kept.
    rewrite cleanupOldCaches_lookup. by case_decide.
  - apply map_eq. intros cacheName. unfold kept. rewrite !cleanupOldCaches_lookup.
    by case_decide.
Qed.

(** X13. The two cleanups do not interfere: deleting the old caches and
    sweeping the expired entries give the same storage in either order. *)
Theorem cleanupOldCaches_commutes_with_cleanupCaches
    (configs : gmap string CacheConfig) (now : Z) (storage : CacheStorage) :
  distinct_keys storage →
  cleanupOldCaches configs (cleanupCaches configs now storage)
  = cleanupCaches configs now (cleanupOldCaches configs storage).
Proof.
  intros Hwf. apply map_eq. intros cacheName.
  rewrite cleanupOldCaches_lookup.
  rewrite !cleanupCaches_lookup by first [done | by apply cleanupOldCaches_distinct_keys].
  rewrite cleanupOldCaches_lookup. by case_decide.
Qed.

(** ** The fetch listener *)

Section Dispatch.
Context (configs : gmap string CacheConfig) (net : Request → Promise Response).


(** The strategy and the cache the listener picks for a request it answers. *)
Lemma onFetch_routes (request : FetchRequest) (handler : M (option Response)) :
  onFetch configs net request = Some handler →
  method request = "GET" ∧
  startsWith "http" (protocol request) = true ∧
  ∃ cacheName,
    cacheName ∈ [STATIC_CACHE; API_CACHE; FONTS_CACHE; IMAGES_CACHE; PAGES_CACHE] ∧
    (cacheName = STATIC_CACHE → CACHE_PATTERNS_static (pathname request) = true) ∧
    (handler = responding (cacheFirstStrategy configs net (href request) cacheName) ∨
     handler = responding (networkFirstStrategy configs net (href request) cacheName None) ∨
     handler = staleWhileRevalidateStrategy configs net (href request) cacheName).
Proof.
  unfold onFetch. case_decide as Hmethod; [done|].
  destruct (startsWith "http" (protocol request)) eqn:Hprotocol; [|done]. simpl.
  assert (method request = "GET") as Hget
    by (destruct (decide (method request = "GET")); [done | by destruct Hmethod]).
  destruct (CACHE_PATTERNS_static (pathname request)) eqn:Hstatic;
    [|destruct (CACHE_PATTERNS_api (pathname request));
      [|destruct (CACHE_PATTERNS_fonts (href request));
        [|destruct (CACHE_PATTERNS_images (href request));
          [|destruct (CACHE_PATTERNS_pages (pathname request))]]]];
    intros [= <-]; (split; [done|]); (split; [done|]).
  - exists STATIC_CACHE. split_and!; [set_solver | done | by left].
  - exists API_CACHE. split_and!; [set_solver | by intros [=] | right; by left].
  - exists FONTS_CACHE. split_and!; [set_solver | by intros [=] | by left].
  - exists IMAGES_CACHE. split_and!; [set_solver | by intros [=] | right; by right].
  - exists PAGES_CACHE. split_and!; [set_solver | by intros [=] | right; by right].
  - exists PAGES_CACHE. split_and!; [set_solver | by intros [=] | right; by left].
Qed.


End Dispatch.



(** X16. What [install] precaches into the static cache is not served from
    it: a request for [/] or [/manifest.json] that the fetch listener
    answers is handed to a strategy on another cache. *)
Theorem precached_resources_are_not_served_from_the_static_cache
    (configs : gmap string CacheConfig) (net : Request → Promise Response)
    (request : FetchRequest) (handler : M (option Response)) :
  pathname request ∈ ["/"; "/manifest.json"] →
  onFetch configs net request = Some handler →
  ∃ cacheName,
    cacheName ≠ STATIC_CACHE ∧
    (handler = responding (cacheFirstStrategy configs net (href request) cacheName) ∨
     handler = responding (networkFirstStrategy configs net (href request) cacheName None) ∨
     handler = staleWhileRevalidateStrategy configs net (href request) cacheName).
Proof.
  intros Hpath Hhandler.
  destruct (onFetch_routes configs net request handler Hhandler)
    as (_ & _ & cacheName & _ & Hstatic & Hstrategy).
  exists cacheName. split; [|done]. intros ->. specialize (Hstatic eq_refl).
  set_unfold. destruct Hpath as [Hpath | [Hpath | []]]; rewrite Hpath in Hstatic;
    vm_compute in Hstatic; discriminate.
Qed.

Section Warming.
Context (net : Request → Promise Response) (parse : string → Request).
Implicit Types (w : World) (url : string) (request : Request) (urls : list string).

Lemma Cache_delete_length (cache : Cache) request :
  length cache = length (Cache_delete cache request) + entries_for cache request.
Proof.
  unfold Cache_delete, entries_for.
  induction cache as [|[key stored] rest IH]; [done|].
  rewrite !filter_cons. simpl.
  destruct (decide (key = request)) as [->|Hne].
  - rewrite decide_False by tauto. simpl. lia.
  - rewrite decide_True by done. simpl. lia.
Qed.

Lemma Cache_put_length_ge (cache : Cache) request response :
  NoDup (Cache_keys cache) → length cache ≤ length (Cache_put cache request response).
Proof.
  intros Hnd. pose proof (entries_for_NoDup cache request Hnd) as Hone.
  unfold Cache_put. rewrite length_app. simpl.
  rewrite (Cache_delete_length cache request). lia.
Qed.

(** One URL of [warmCache], from the instant at which the fetches went
    out. *)
Lemma warmOne_run url w :
  let w' := (warmOne net parse url w).2 in
  fetched w' = fetched w ∧ pending w' = pending w ∧
  console w' = console w ++ warnings net parse url ∧
  ∀ name,
    cacheOf w' name =
    match warmed net (clock w) (parse url) with
    | Some response =>
        if decide (warmCacheName url = name)
        then Cache_put (cacheOf w name) (parse url) response else cacheOf w name
    | None => cacheOf w name
    end.
Proof.
  unfold warmOne, warmed, warnings. unfold_async. simpl.
  destruct (outcome (net (parse url))) as [response|error]; simpl; [|done].
  destruct (ok response); simpl; [|by rewrite app_nil_r].
  destruct (caches_open_run (warmCacheName url)
              (set_clock (clock w + settlesAfter (net (parse url))) w))
    as (w1 & -> & Hsame & Hclock & Hconsole & Hfetched & Hpending & _).
  simpl. rewrite Cache_put_refuses_addTimestamp.
  destruct (Cache_put_refuses response); simpl;
    rewrite Hconsole, Hfetched, Hpending; simpl; rewrite ?app_nil_r.
  - split_and!; try done; intros name; by rewrite ?cacheOf_add_log, Hsame.
  - split_and!; try done; intros name; rewrite cacheOf_insert, Hclock; simpl;
      case_decide; subst; by rewrite Hsame, cacheOf_set_clock.
Qed.

(** The URLs dealt with one after the other, in any order, their fetches
    having gone out at the instant [now]. *)
Lemma warm_all_run now urls : ∀ w,
  let w' := foldl (λ w' url, (warmOne net parse url (set_clock now w')).2) w urls in
  fetched w' = fetched w ∧ pending w' = pending w ∧
  console w' = console w ++ urls ≫= warnings net parse ∧
  (∀ name request,
     Cache_match (cacheOf w' name) request =
     match (if decide (Exists (λ url, parse url = request ∧ warmCacheName url = name) urls)
            then warmed net now request else None) with
     | Some response => Some response
     | None => Cache_match (cacheOf w name) request
     end) ∧
  (distinct_keys (caches w) →
   distinct_keys (caches w') ∧
   ∀ name, length (cacheOf w name) ≤ length (cacheOf w' name)).
Proof.
  induction urls as [|url urls IH]; intros w; cbv zeta; cbn [foldl].
  - cbn [mbind list_bind]. rewrite app_nil_r. split_and!; try done.
    all: intros name request; rewrite decide_False; [done|]; by intros ?%Exists_nil.
  - pose proof (warmOne_run url (set_clock now w)) as Hone. cbv zeta in Hone.
    destruct Hone as (Hfetched & Hpending & Hconsole & Hcaches).
    pose proof (IH (warmOne net parse url (set_clock now w)).2) as Hrest.
    cbv zeta in Hrest.
    destruct Hrest as (Hfetched' & Hpending' & Hconsole' & Hmatch' & Hwf').
    rewrite Hfetched', Hpending', Hconsole', Hfetched, Hpending, Hconsole.
    cbn [mbind list_bind]. rewrite <- app_assoc. simpl in Hcaches.
    split_and!; try done.
    + intros name request. rewrite Hmatch', Hcaches. rewrite !cacheOf_set_clock.
      destruct (decide (Exists (λ url, parse url = request ∧ warmCacheName url = name) urls))
        as [Hin|Hnot].
      * rewrite (decide_True (P := Exists _ (url :: urls))) by by right.
        destruct (warmed net now request) as [response|] eqn:Hwarmed; [done|].
        destruct (warmed net now (parse url)) as [response|] eqn:Hurl; [|done].
        case_decide; [|done]. rewrite Cache_match_put. case_decide; [|done].
        congruence.
      * destruct (decide (parse url = request ∧ warmCacheName url = name))
          as [[Hkey Hname]|Hother].
        -- rewrite (decide_True (P := Exists _ (url :: urls))) by by left.
           rewrite Hkey. destruct (warmed net now request) as [response|] eqn:Hwarmed.
           ++ rewrite decide_True by done. rewrite Cache_match_put.
              by rewrite decide_True by done.
           ++ done.
        -- rewrite (decide_False (P := Exists _ (url :: urls)))
             by (intros [?|?]%Exists_cons; tauto).
           destruct (warmed net now (parse url)) as [response|]; [|done].
           case_decide; [|done]. rewrite Cache_match_put.
           case_decide; [|done]. tauto.
    + intros Hwf.
      assert (distinct_keys (caches (warmOne net parse url (set_clock now w)).2) ∧
              ∀ name, length (cacheOf w name)
                      ≤ length (cacheOf (warmOne net parse url (set_clock now w)).2 name))
        as [Hwf1 Hlen1].
      { pose proof (proj1 (distinct_keys_cacheOf w) Hwf) as Hnd. split.
        - apply distinct_keys_cacheOf. intros name. rewrite Hcaches.
          rewrite !cacheOf_set_clock.
          destruct (warmed net now (parse url)); [|done].
          case_decide; [|done]. by apply Cache_put_NoDup.
        - intros name. rewrite Hcaches. rewrite !cacheOf_set_clock.
          destruct (warmed net now (parse url)); [|done].
          case_decide; [|done]. by apply Cache_put_length_ge. }
      destruct (Hwf' Hwf1) as [Hwf2 Hlen2]. split; [done|].
      intros name. etrans; [apply Hlen1 | apply Hlen2].
Qed.

Lemma issue_all_run urls : ∀ w,
  let w' := foldl (λ w' url, add_fetch (parse url) w') w urls in
  caches w' = caches w ∧ clock w' = clock w ∧ console w' = console w ∧
  pending w' = pending w ∧
  fetched w' = fetched w ++ (parse <$> urls).
Proof.
  induction urls as [|url urls IH]; intros w; simpl.
  - by rewrite app_nil_r.
  - destruct (IH (add_fetch (parse url) w)) as (-> & -> & -> & -> & ->). simpl.
    by rewrite <- app_assoc.
Qed.

Lemma settling_order_Permutation urls : settling_order net parse urls ≡ₚ urls.
Proof. apply merge_sort_Permutation. Qed.

(** [warmCache] as a whole. *)
Lemma warmCache_run urls w :
  let w' := (warmCache net parse urls w).2 in
  (warmCache net parse urls w).1 = Fulfilled () ∧
  fetched w' = fetched w ++ (parse <$> urls) ∧
  console w' ≡ₚ console w ++ urls ≫= warnings net parse ∧
  (∀ name request,
     Cache_match (cacheOf w' name) request =
     match (if decide (Exists (λ url, parse url = request ∧ warmCacheName url = name) urls)
            then warmed net (clock w) request else None) with
     | Some response => Some response
     | None => Cache_match (cacheOf w name) request
     end) ∧
  (distinct_keys (caches w) →
   distinct_keys (caches w') ∧
   ∀ name, length (cacheOf w name) ≤ length (cacheOf w' name)) ∧
  pending w' = pending w.
Proof.
  unfold warmCache. cbv zeta. cbn [fst snd].
  pose proof (issue_all_run urls w) as Hissue. cbv zeta in Hissue.
  destruct Hissue as (Hcaches & Hclock & Hconsole & Hpending & Hfetched).
  pose proof (warm_all_run (clock w) (settling_order net parse urls)
                (foldl (λ w' url, add_fetch (parse url) w') w urls)) as Hwarm.
  cbv zeta in Hwarm.
  destruct Hwarm as (Hfetched' & Hpending' & Hconsole' & Hmatch' & Hwf').
  assert (∀ name, cacheOf (foldl (λ w' url, add_fetch (parse url) w') w urls) name
                  = cacheOf w name) as Hissued
    by (intros name; unfold cacheOf; by rewrite Hcaches).
  split_and!; try done.
  - simpl. by rewrite Hfetched', Hfetched.
  - simpl. rewrite Hconsole', Hconsole. apply Permutation_app; [done|].
    apply bind_Permutation, settling_order_Permutation.
  - intros name request. rewrite cacheOf_set_clock, Hmatch', Hissued.
    destruct (decide (Exists (λ url, parse url = request ∧ warmCacheName url = name)
                        (settling_order net parse urls))) as [Hin|Hnot].
    + rewrite decide_True; [done|]. by rewrite <- (settling_order_Permutation urls).
    + rewrite decide_False; [done|]. by rewrite <- (settling_order_Permutation urls).
  - intros Hwf. rewrite <- Hcaches in Hwf. destruct (Hwf' Hwf) as [Hwf2 Hlen].
    split; [done|]. intros name. specialize (Hlen name).
    by rewrite Hissued in Hlen.
  - simpl. by rewrite Hpending', Hpending.
Qed.


End Warming.



(** X19. [warmCache] never evicts: from a storage whose caches hold no two
    entries for one request it leaves such a storage, no cache has fewer
    entries afterwards, and a request that had a match still has one. *)
Theorem warmCache_never_evicts
    (net : Request → Promise Response) (parse : string → Request)
    (urls : list string) (w : World) :
  distinct_keys (caches w) →
  distinct_keys (caches (warmCache net parse urls w).2) ∧
  ∀ cacheName,
    length (cacheOf w cacheName)
    ≤ length (cacheOf (warmCache net parse urls w).2 cacheName) ∧
    ∀ request,
      is_Some (Cache_match (cacheOf w cacheName) request) →
      is_Some (Cache_match (cacheOf (warmCache net parse urls w).2 cacheName) request).
Proof.
  intros Hwf. pose proof (warmCache_run net parse urls w) as Hrun. cbv zeta in Hrun.
  destruct Hrun as (_ & _ & _ & Hmatch & Hkeep & _).
  destruct (Hkeep Hwf) as [Hwf' Hlen]. split; [done|]. intros cacheName.
  split; [done|]. intros request Hhit. rewrite Hmatch.
  by destruct (if decide _ then _ else _).
Qed.


Section Status.

Lemma totalSize_loop (suffix : Cache) : ∀ (visited : Cache) (total : nat),
  NoDup (Cache_keys (visited ++ suffix)) →
  foldl
    (λ total request,
       match Cache_match (visited ++ suffix) request with
       | Some response => total + String.length (body response)
       | None => total
       end)
    total (Cache_keys suffix)
  = total + sum_list ((λ entry, String.length (body entry.2)) <$> suffix).
Proof.
  induction suffix as [|[key response] suffix IH]; intros visited total Hnd.
  - simpl. lia.
  - cbn [Cache_keys fmap list_fmap foldl sum_list fst snd].
    assert (Cache_match (visited ++ (key, response) :: suffix) key = Some response) as ->.
    { rewrite Cache_match_app.
      assert (Cache_match visited key = None) as ->.
      { apply Cache_match_None. unfold Cache_keys in *. rewrite fmap_app in Hnd.
        apply NoDup_app in Hnd as (_ & Hdisjoint & _). intros Hin.
        apply (Hdisjoint key Hin). simpl. by left. }
      simpl. by rewrite decide_True. }
    specialize (IH (visited ++ [(key, response)]) (total + String.length (body response))).
    rewrite <- app_assoc in IH. simpl in IH. unfold Cache_keys in IH.
    rewrite (IH Hnd). unfold id. lia.
Qed.

Lemma totalSize_sum (cache : Cache) :
  NoDup (Cache_keys cache) →
  totalSize cache = sum_list ((λ entry, String.length (body entry.2)) <$> cache).
Proof.
  intros Hnd. exact (totalSize_loop cache [] 0 Hnd).
Qed.

End Status.

(** X21. [getCacheStatus] changes nothing and reports one status for each
    cache that [caches.keys()] lists, in that order, which is the order in
    which the caches were created; when no cache holds two entries for one
    request, the status of a cache carries the number of its entries and the
    sum of the lengths of the bodies stored in it. When the list of
    [caches.keys()] is that of the caches of the storage, the statuses are
    those of the caches of the storage, each once. *)
Theorem getCacheStatus_counts_entries_and_bytes (w : World) :
  distinct_keys (caches w) →
  (getCacheStatus w).2 = w ∧
  ∃ statuses,
    (getCacheStatus w).1 = Fulfilled statuses ∧
    name <$> statuses = created w ∧
    (listed w → name <$> statuses ≡ₚ (map_to_list (caches w)).*1) ∧
    ∀ status, status ∈ statuses →
      entryCount status = length (cacheOf w (name status)) ∧
      size status
      = sum_list ((λ entry, String.length (body entry.2)) <$> cacheOf w (name status)) ∧
      lastAccessed status = clock w.
Proof.
  intros Hwf. split; [done|]. eexists. split; [done|].
  assert (name <$> ((λ cacheName,
                       let cache := cacheOf w cacheName in
                       mkStatus cacheName (length (Cache_keys cache)) (totalSize cache)
                         (clock w)) <$> created w) = created w) as Hnames.
  { rewrite <- list_fmap_compose. rewrite <- (list_fmap_id (created w)) at 2.
    by apply list_fmap_ext. }
  split_and!.
  - exact Hnames.
  - intros [Hnd Hlisted]. rewrite Hnames. apply NoDup_Permutation.
    + done.
    + apply NoDup_fst_map_to_list.
    + intros cacheName. rewrite Hlisted, list_elem_of_fmap. split.
      * intros [cache Hcache]. exists (cacheName, cache).
        split; [done|]. by apply elem_of_map_to_list.
      * intros ([cacheName' cache] & -> & Hin). apply elem_of_map_to_list in Hin.
        by exists cache.
  - intros status Hin. apply list_elem_of_fmap in Hin as (cacheName & -> & Hin).
    simpl. split_and!; [| |done].
    + unfold Cache_keys. by rewrite length_fmap.
    + apply totalSize_sum. by apply distinct_keys_cacheOf.
Qed.

(** X22. The [message] listener never rejects and keeps the keys of every
    cache distinct; a message without data, of an unknown type, or a
    [WARM_CACHE] without URLs leaves the world as it was; [skipWaiting] is
    called for [SKIP_WAITING] only, and a status is posted only in answer to
    [GET_CACHE_STATUS] on an event that carries a port. *)
Theorem onMessage_ignores_what_it_does_not_know
    (configs : gmap string CacheConfig) (net : Request → Promise Response)
    (parse : string → Request) (data : option Message) (port : bool) (w : World) :
  ∃ effects,
    (onMessage configs net parse data port w).1 = Fulfilled effects ∧
    (distinct_keys (caches w) →
     distinct_keys (caches (onMessage configs net parse data port w).2)) ∧
    ((∀ message, data = Some message →
        type message ≠ "CLEANUP_CACHES" ∧
        (type message = "WARM_CACHE" → urls message = None)) →
     (onMessage configs net parse data port w).2 = w) ∧
    (SkipWaiting ∈ effects ↔ ∃ message, data = Some message ∧ type message = "SKIP_WAITING") ∧
    (∀ status, PostMessage status ∈ effects →
       port = true ∧ ∃ message, data = Some message ∧ type message = "GET_CACHE_STATUS").
Proof.
  unfold onMessage. destruct data as [message|]; simpl.
  2: { exists []. split_and!; try done.
       - split; [by intros ?%elem_of_nil | by intros (? & ? & _)].
       - by intros ? ?%elem_of_nil. }
  destruct (decide (type message = "SKIP_WAITING")) as [Hskip|Hskip].
  { exists [SkipWaiting]. split_and!; try done.
    - split; [by exists message | by left].
    - intros status Hin. apply list_elem_of_singleton in Hin. done. }
  destruct (decide (type message = "CLEANUP_CACHES")) as [Hcleanup|Hcleanup].
  { exists []. unfold cleanupCaches_now. unfold_async. simpl. split_and!; try done.
    - apply cleanupCaches_distinct_keys.
    - intros Hnot. by destruct (Hnot message eq_refl).
    - split; [by intros ?%elem_of_nil | by intros (? & [= <-] & ?)].
    - by intros ? ?%elem_of_nil. }
  destruct (decide (type message = "WARM_CACHE")) as [Hwarm|Hwarm].
  { exists []. destruct (urls message) as [urls|] eqn:Hurls.
    - unfold_async. simpl. split_and!; try done.
      + intros Hwf. pose proof (warmCache_run net parse urls w) as Hrun. cbv zeta in Hrun.
        destruct Hrun as (_ & _ & _ & _ & Hkeep & _). by destruct (Hkeep Hwf).
      + intros Hnot. destruct (Hnot message eq_refl) as [_ Hnone].
        specialize (Hnone Hwarm). congruence.
      + split; [by intros ?%elem_of_nil | by intros (? & [= <-] & ?)].
      + by intros ? ?%elem_of_nil.
    - split_and!; try done.
      + split; [by intros ?%elem_of_nil | by intros (? & [= <-] & ?)].
      + by intros ? ?%elem_of_nil. }
  destruct (decide (type message = "GET_CACHE_STATUS")) as [Hstatus|Hstatus].
  { eexists. unfold getCacheStatus. unfold_async. simpl. split; [done|].
    split_and!; try done.
    - split; [|by intros (? & [= <-] & ?)].
      destruct port; [|by intros ?%elem_of_nil].
      intros Hin. apply list_elem_of_singleton in Hin. done.
    - intros status Hin. destruct port; [|by apply elem_of_nil in Hin].
      split; [done|]. by exists message. }
  exists []. split_and!; try done.
  - split; [by intros ?%elem_of_nil | by intros (? & [= <-] & ?)].
  - by intros ? ?%elem_of_nil.
Qed.

(** ** The further properties at sample inputs *)

Lemma sample_world_distinct_keys : distinct_keys (caches sample_world).
Proof.
  intros cacheName cache Hcache. unfold sample_world in Hcache. simpl in Hcache.
  apply lookup_singleton_Some in Hcache as [_ <-]. apply NoDup_singleton.
Qed.

Lemma isExpired_monotone_in_time_witness :
  (86400001 ≤ 90000000)%Z ∧
  isExpired CACHE_CONFIGS 86400001 sample_stamped API_CACHE = true ∧
  isExpired CACHE_CONFIGS 90000000 sample_stamped API_CACHE = true.
Proof.
  split; [lia|]. split; [reflexivity|].
  destruct (isExpired_monotone_in_time CACHE_CONFIGS 86400001 90000000 sample_stamped
              API_CACHE ltac:(lia)) as [Hstays _].
  apply Hstays. reflexivity.
Defined.

Lemma addTimestamp_starts_the_age_witness :
  CACHE_CONFIGS !! API_CACHE ≫= maxAgeSeconds = Some 86400%Z ∧
  isExpired CACHE_CONFIGS (1000 + 86400001) (addTimestamp 1000 sample_stamped) API_CACHE
  = true.
Proof.
  split; [reflexivity|].
  destruct (addTimestamp_starts_the_age CACHE_CONFIGS API_CACHE 86400 1000 86400001
              sample_stamped eq_refl ltac:(lia)) as [Hage _].
  apply Hage. lia.
Defined.



Lemma networkFirstStrategy_waits_at_most_the_timeout_witness :
  (0 ≤ settlesAfter (slow_network "/api/models"))%Z ∧
  clock (networkFirstStrategy CACHE_CONFIGS slow_network "/api/models" API_CACHE
           (Some 100%Z) sample_world).2 = 1100%Z ∧
  clock (networkFirstStrategy CACHE_CONFIGS slow_network "/api/models" API_CACHE
           (Some (-5)%Z) sample_world).2 = 1000%Z.
Proof.
  assert (0 ≤ settlesAfter (slow_network "/api/models"))%Z as Hlatency
    by (vm_compute; discriminate).
  split; [exact Hlatency|]. split.
  - destruct (networkFirstStrategy_waits_at_most_the_timeout CACHE_CONFIGS slow_network
                "/api/models" API_CACHE (Some 100%Z) sample_world Hlatency)
      as [Hresumes _].
    rewrite Hresumes; [reflexivity | simpl; lia].
  - destruct (networkFirstStrategy_waits_at_most_the_timeout CACHE_CONFIGS slow_network
                "/api/models" API_CACHE (Some (-5)%Z) sample_world Hlatency)
      as [_ Hatonce].
    rewrite Hatonce; [reflexivity | simpl; lia].
Defined.

Lemma cacheFirstStrategy_miss_then_hit_witness :
  outcome (slow_network "/api/models") = Fulfilled sample_update ∧
  ok sample_update = true ∧
  Cache_put_refuses sample_update = false ∧
  (cacheFirstStrategy CACHE_CONFIGS offline_network "/api/models" API_CACHE
     (settle CACHE_CONFIGS 5000
        (cacheFirstStrategy CACHE_CONFIGS slow_network "/api/models" API_CACHE
           empty_world).2)).1
  = Fulfilled (mkResponse 200 "OK" "{v2}" [] (Some 1500%Z)).
Proof.
  split; [reflexivity|]. split; [reflexivity|]. split; [reflexivity|].
  assert (∀ r, Cache_match (cacheOf empty_world API_CACHE) "/api/models" = Some r →
               isExpired CACHE_CONFIGS (clock empty_world) r API_CACHE = true) as Hmiss
    by (intros r Hm; vm_compute in Hm; discriminate).
  destruct (cacheFirstStrategy_miss_then_hit CACHE_CONFIGS slow_network offline_network
              "/api/models" API_CACHE empty_world sample_update 5000
              (NoDup_nil_2 (A := string)) Hmiss eq_refl eq_refl eq_refl eq_refl
              ltac:(simpl; lia) eq_refl) as [_ Hagain].
  rewrite Hagain. reflexivity.
Defined.

Lemma networkFirstStrategy_online_then_offline_witness :
  (settlesAfter (slow_network "/api/models") < default 3000 None)%Z ∧
  Cache_put_refuses sample_update = false ∧
  outcome (offline_network "/api/models") = Rejected (Err "Failed to fetch") ∧
  (networkFirstStrategy CACHE_CONFIGS offline_network "/api/models" API_CACHE None
     (settle CACHE_CONFIGS 999999999999
        (networkFirstStrategy CACHE_CONFIGS slow_network "/api/models" API_CACHE None
           empty_world).2)).1
  = Fulfilled (mkResponse 200 "OK" "{v2}" [] (Some 1500%Z)).
Proof.
  split; [reflexivity|]. split; [reflexivity|]. split; [reflexivity|].
  destruct (networkFirstStrategy_online_then_offline CACHE_CONFIGS slow_network
              offline_network "/api/models" API_CACHE None None empty_world sample_update
              999999999999 (NoDup_nil_2 (A := string)) ltac:(simpl; lia) eq_refl eq_refl
              eq_refl eq_refl eq_refl ltac:(simpl; lia)
              (or_intror (ex_intro _ (Err "Failed to fetch") eq_refl))) as [_ Hagain].
  exact Hagain.
Defined.

Lemma staleWhileRevalidateStrategy_serves_the_refresh_witness :
  Cache_match (cacheOf sample_world API_CACHE) "/api/models" = Some sample_stamped ∧
  pending sample_world = [] ∧
  Cache_put_refuses sample_update = false ∧
  (staleWhileRevalidateStrategy CACHE_CONFIGS offline_network "/api/models" API_CACHE
     (settle CACHE_CONFIGS 5000
        (staleWhileRevalidateStrategy CACHE_CONFIGS slow_network "/api/models" API_CACHE
           sample_world).2)).1
  = Fulfilled (Some (mkResponse 200 "OK" "{v2}" [] (Some 1500%Z))) ∧
  (staleWhileRevalidateStrategy CACHE_CONFIGS offline_network "/api/models" API_CACHE
     (settle CACHE_CONFIGS 1001
        (staleWhileRevalidateStrategy CACHE_CONFIGS slow_network "/api/models" API_CACHE
           sample_world).2)).1
  = Fulfilled (Some sample_stamped).
Proof.
  split; [reflexivity|]. split; [reflexivity|]. split; [reflexivity|]. split.
  - destruct (staleWhileRevalidateStrategy_serves_the_refresh CACHE_CONFIGS slow_network
                offline_network "/api/models" API_CACHE sample_world sample_update 5000
                (NoDup_singleton _) eq_refl eq_refl eq_refl eq_refl) as [Hlanded _].
    destruct (Hlanded ltac:(simpl; lia) eq_refl) as [Hagain _]. exact Hagain.
  - destruct (staleWhileRevalidateStrategy_serves_the_refresh CACHE_CONFIGS slow_network
                offline_network "/api/models" API_CACHE sample_world sample_update 1001
                (NoDup_singleton _) eq_refl eq_refl eq_refl eq_refl) as [_ Hinflight].
    destruct (Hinflight ltac:(simpl; lia) sample_stamped eq_refl eq_refl eq_refl)
      as (_ & Hagain & _).
    exact Hagain.
Defined.

Lemma cleanupCaches_idempotent_witness :
  distinct_keys (caches sample_world) ∧
  cleanupCaches CACHE_CONFIGS 86400001
    (cleanupCaches CACHE_CONFIGS 86400001 (caches sample_world))
  = cleanupCaches CACHE_CONFIGS 86400001 (caches sample_world).
Proof.
  split; [exact sample_world_distinct_keys|].
  destruct (cleanupCaches_idempotent CACHE_CONFIGS 86400001 (caches sample_world)
              sample_world_distinct_keys) as [Hagain _].
  exact Hagain.
Defined.

Lemma cleanupCaches_later_sweep_subsumes_witness :
  (5000 ≤ 86400001)%Z ∧
  cleanupCaches CACHE_CONFIGS 86400001
    (cleanupCaches CACHE_CONFIGS 5000 (caches sample_world))
  = cleanupCaches CACHE_CONFIGS 86400001 (caches sample_world).
Proof.
  split; [lia|].
  apply (cleanupCaches_later_sweep_subsumes CACHE_CONFIGS 5000 86400001
           (caches sample_world) sample_world_distinct_keys).
  lia.
Defined.

Lemma cleanupOldCaches_keeps_current_caches_witness :
  is_Some (CACHE_CONFIGS !! API_CACHE) ∧
  CACHE_CONFIGS !! "api-cache-v0" = None ∧
  includes "cache" "api-cache-v0" = true ∧
  cleanupOldCaches CACHE_CONFIGS old_storage !! API_CACHE = old_storage !! API_CACHE ∧
  cleanupOldCaches CACHE_CONFIGS old_storage !! "api-cache-v0" = None.
Proof.
  assert (is_Some (CACHE_CONFIGS !! API_CACHE)) as Hcurrent
    by (eexists; vm_compute; reflexivity).
  split; [exact Hcurrent|]. split; [reflexivity|]. split; [reflexivity|].
  destruct (cleanupOldCaches_keeps_current_caches CACHE_CONFIGS old_storage)
    as (Hkept & _ & Hdeleted & _).
  split; [apply Hkept; exact Hcurrent | apply Hdeleted; reflexivity].
Defined.

Lemma cleanupOldCaches_commutes_with_cleanupCaches_witness :
  distinct_keys (caches sample_world) ∧
  cleanupOldCaches CACHE_CONFIGS (cleanupCaches CACHE_CONFIGS 86400001 (caches sample_world))
  = cleanupCaches CACHE_CONFIGS 86400001 (cleanupOldCaches CACHE_CONFIGS (caches sample_world)).
Proof.
  split; [exact sample_world_distinct_keys|].
  apply (cleanupOldCaches_commutes_with_cleanupCaches CACHE_CONFIGS 86400001
           (caches sample_world) sample_world_distinct_keys).
Defined.



Lemma precached_resources_are_not_served_from_the_static_cache_witness :
  pathname sample_home ∈ ["/"; "/manifest.json"] ∧
  ∃ cacheName,
    cacheName ≠ STATIC_CACHE ∧
    (staleWhileRevalidateStrategy CACHE_CONFIGS slow_network (href sample_home) PAGES_CACHE
     = responding (cacheFirstStrategy CACHE_CONFIGS slow_network (href sample_home) cacheName) ∨
     staleWhileRevalidateStrategy CACHE_CONFIGS slow_network (href sample_home) PAGES_CACHE
     = responding (networkFirstStrategy CACHE_CONFIGS slow_network (href sample_home)
                     cacheName None) ∨
     staleWhileRevalidateStrategy CACHE_CONFIGS slow_network (href sample_home) PAGES_CACHE
     = staleWhileRevalidateStrategy CACHE_CONFIGS slow_network (href sample_home) cacheName).
Proof.
  assert (pathname sample_home ∈ ["/"; "/manifest.json"]) as Hpath by (simpl; left).
  split; [exact Hpath|].
  apply (precached_resources_are_not_served_from_the_static_cache CACHE_CONFIGS
           slow_network sample_home _ Hpath eq_refl).
Defined.


Lemma warmCache_never_evicts_witness :
  distinct_keys (caches sample_world) ∧
  length (cacheOf sample_world API_CACHE)
  ≤ length (cacheOf (warmCache slow_network sample_parse ["/api/models"; "/api/chat"]
                       sample_world).2 API_CACHE).
Proof.
  split; [exact sample_world_distinct_keys|].
  destruct (warmCache_never_evicts slow_network sample_parse ["/api/models"; "/api/chat"]
              sample_world sample_world_distinct_keys) as [_ Hkeeps].
  destruct (Hkeeps API_CACHE) as [Hlength _]. exact Hlength.
Defined.


Lemma getCacheStatus_counts_entries_and_bytes_witness :
  distinct_keys (caches sample_world) ∧
  (getCacheStatus sample_world).1
  = Fulfilled [mkStatus API_CACHE 1 2 1000].
Proof.
  split; [exact sample_world_distinct_keys|].
  destruct (getCacheStatus_counts_entries_and_bytes sample_world
              sample_world_distinct_keys) as [_ (statuses & Hresult & _)].
  rewrite Hresult. simpl in Hresult. injection Hresult as <-. reflexivity.
Defined.

Lemma onMessage_ignores_what_it_does_not_know_witness :
  (onMessage CACHE_CONFIGS slow_network sample_parse (Some (mkMessage "PING" None)) false
     sample_world).2 = sample_world.
Proof.
  destruct (onMessage_ignores_what_it_does_not_know CACHE_CONFIGS slow_network
              sample_parse (Some (mkMessage "PING" None)) false sample_world)
    as (effects & _ & _ & Hsame & _).
  apply Hsame. intros message Hdata. injection Hdata as <-.
  split; [discriminate | discriminate].
Defined.
